(** * Font-Scraper: the raster -> outline -> font pipeline

    A shallow embedding of [services/imageService.ts] (foreground
    extraction, outline tracing, glyph transforms, font assembly) and of the
    batch handler [handleFetchAndProcessCharacters] of the application
    component (baseline calibration and the two pipeline stages).

    Conventions.
    - Pixel indices, image dimensions and loop counters are [nat]; values
      that may hold the [-1] sentinel (bounding box, [maxY]) are [Z].
    - A JavaScript number that may be fractional (scale, offsets, outline
      coordinates, the baseline) is an exact rational [Q]; floating-point
      rounding error is not modelled.  [Math.round x] is [Qfloor (x + 1/2)],
      [Math.floor] is [Qfloor].
    - A typed array is a [list Z]; reading outside it gives [None]
      (JavaScript's [undefined], on which every comparison is false), and
      writing outside it does nothing.
    - The canvas 2D context is assumed to be available: the
      [throw new Error('Failed to get 2D context ...')] paths are not
      modelled.  Premultiplied-alpha effects of [putImageData] followed by
      [getImageData] are not modelled either.
    - A character is an [ascii] and a string a [string]; the UTF-16 code
      units of JavaScript are not modelled beyond that.
    - The two [while] loops of the tracer take fuel; running out of it is
      the result [None], which is proved never to happen. *)

From Stdlib Require Import Ascii String QArith Qround Lqa Lia Permutation Sorted.
From stdpp Require Import base option list numbers strings sorting.

Local Open Scope Z_scope.

(** ** services/imageService.ts *)

Definition RENDER_SIZE : Z := 256.

Definition BG_COLOR_R : Z := 255.
Definition BG_COLOR_G : Z := 255.
Definition BG_COLOR_B : Z := 255.
Definition BG_COLOR_TOLERANCE : Z := 15.

(** [ImageData]: [data] holds [4 * width * height] channel bytes, row major,
    in the order R, G, B, A. *)
Record ImageData := mkImageData {
  img_width : nat;
  img_height : nat;
  img_data : list Z
}.

(** [types.ts], [ProcessedCharacter]. *)
Record ProcessedCharacter := mkProcessedCharacter {
  pc_char : string;
  pc_imageData : ImageData;
  pc_width : Z;
  pc_height : Z;
  pc_maxY : Z
}.

(** Comparisons of a possibly [undefined] array element with a number. *)
Definition js_ge (a : option Z) (b : Z) : bool :=
  match a with Some v => b <=? v | None => false end.
Definition js_le (a : option Z) (b : Z) : bool :=
  match a with Some v => v <=? b | None => false end.
Definition js_gt (a : option Z) (b : Z) : bool :=
  match a with Some v => b <? v | None => false end.

(** The background test of [processImage] on the three colour channels. *)
Definition is_background (r g b : option Z) : bool :=
  js_ge r (BG_COLOR_R - BG_COLOR_TOLERANCE) && js_le r (BG_COLOR_R + BG_COLOR_TOLERANCE) &&
  js_ge g (BG_COLOR_G - BG_COLOR_TOLERANCE) && js_le g (BG_COLOR_G + BG_COLOR_TOLERANCE) &&
  js_ge b (BG_COLOR_B - BG_COLOR_TOLERANCE) && js_le b (BG_COLOR_B + BG_COLOR_TOLERANCE).

(** The variables the double loop of [processImage] updates. *)
Record ScanState := mkScanState {
  minX : Z;
  minY : Z;
  maxX : Z;
  maxY : Z;
  sdata : list Z
}.

(** Byte offset of pixel [(x_coord, y_coord)] in an image of width [w]. *)
Definition pixel_index (w y_coord x_coord : nat) : nat :=
  ((y_coord * w + x_coord) * 4)%nat.

(** Body of the inner loop of [processImage]. *)
Definition scan_pixel (w y_coord : nat) (s : ScanState) (x_coord : nat) : ScanState :=
  let i := pixel_index w y_coord x_coord in
  let r := sdata s !! i in
  let g := sdata s !! (i + 1)%nat in
  let b := sdata s !! (i + 2)%nat in
  if is_background r g b then
    mkScanState (minX s) (minY s) (maxX s) (maxY s) (<[(i + 3)%nat := 0]> (sdata s))
  else
    let x := Z.of_nat x_coord in
    let y := Z.of_nat y_coord in
    mkScanState
      (if x <? minX s then x else minX s)
      (if y <? minY s then y else minY s)
      (if maxX s <? x then x else maxX s)
      (if maxY s <? y then y else maxY s)
      (sdata s).

(** [for (x_coord = 0; x_coord < canvas.width; x_coord++)]. *)
Definition scan_row (w : nat) (s : ScanState) (y_coord : nat) : ScanState :=
  foldl (scan_pixel w y_coord) s (seq 0 w).

(** [for (y_coord = 0; y_coord < canvas.height; y_coord++)], started from
    [minX = width, minY = height, maxX = maxY = -1]. *)
Definition scan_image (image : ImageData) : ScanState :=
  foldl (scan_row (img_width image))
        (mkScanState (Z.of_nat (img_width image)) (Z.of_nat (img_height image))
                     (-1) (-1) (img_data image))
        (seq 0 (img_height image)).

(** One pixel of a canvas as [getImageData] reports it: its four channels,
    or transparent black outside the canvas. *)
Definition canvas_pixel (w h : nat) (d : list Z) (x y : nat) : list Z :=
  if (x <? w)%nat && (y <? h)%nat then
    let i := pixel_index w y x in
    [default 0 (d !! i); default 0 (d !! (i + 1)%nat);
     default 0 (d !! (i + 2)%nat); default 0 (d !! (i + 3)%nat)]
  else [0; 0; 0; 0].

(** [ctx.getImageData(sx, sy, sw, sh)] on a canvas of size [w] x [h]. *)
Definition getImageData (w h : nat) (d : list Z) (sx sy : nat) (sw sh : nat) : ImageData :=
  mkImageData sw sh
    (flat_map (fun dy => flat_map (fun dx => canvas_pixel w h d (sx + dx) (sy + dy)) (seq 0 sw))
              (seq 0 sh)).

(** [ctx.createImageData(w, h)]: transparent black. *)
Definition createImageData (w h : nat) : ImageData :=
  mkImageData w h (replicate (4 * w * h) 0).

Definition processImage (image : ImageData) : ProcessedCharacter :=
  let s := scan_image image in
  if (maxX s =? -1) || (maxY s =? -1) then
    let emptyImageData := createImageData 1 1 in
    let emptyImageData :=
      mkImageData (img_width emptyImageData) (img_height emptyImageData)
                  (<[3%nat := 0]> (img_data emptyImageData)) in
    mkProcessedCharacter " " emptyImageData 1 1 (-1)
  else
    let croppedWidth := Z.max 1 (maxX s - minX s + 1) in
    let croppedHeight := Z.max 1 (maxY s - minY s + 1) in
    let newCroppedImageData :=
      getImageData (img_width image) (img_height image) (sdata s)
                   (Z.to_nat (minX s)) (Z.to_nat (minY s))
                   (Z.to_nat croppedWidth) (Z.to_nat croppedHeight) in
    mkProcessedCharacter "" newCroppedImageData croppedWidth croppedHeight (maxY s).

(** *** Outlines *)

(** A command of an [opentype.Path]: move, line, cubic, quadratic, close.
    The fields a command carries are the ones [typeof ... === 'number']
    finds on it. *)
Inductive PathCommand :=
| CmdM (x y : Q)
| CmdL (x y : Q)
| CmdC (x1 y1 x2 y2 x y : Q)
| CmdQ (x1 y1 x y : Q)
| CmdZ.

Definition Path := list PathCommand.

Definition alpha_at (imageData : ImageData) (y_img x_img : nat) : option Z :=
  img_data imageData !! (pixel_index (img_width imageData) y_img x_img + 3)%nat.

(** [alpha > 128]. *)
Definition opaque_at (imageData : ImageData) (y_img x_img : nat) : bool :=
  js_gt (alpha_at imageData y_img x_img) 128.

(** The inner [while] of [imageDataToOpentypePath]: the first column at or
    after [x_img] that ends the run.  [None]: out of fuel. *)
Fixpoint run_end (fuel : nat) (imageData : ImageData) (y_img x_img : nat) : option nat :=
  if (x_img <? img_width imageData)%nat && opaque_at imageData y_img x_img then
    match fuel with
    | O => None
    | S fuel' => run_end fuel' imageData y_img (S x_img)
    end
  else Some x_img.

(** The five commands emitted for one run. *)
Definition run_rectangle (charPixelHeight : Z) (y_img : nat) (runStart_x_img runEnd_x_img : Z) : Path :=
  let path_y_bottom := charPixelHeight - 1 - Z.of_nat y_img in
  let path_y_top := charPixelHeight - Z.of_nat y_img in
  [ CmdM (inject_Z runStart_x_img) (inject_Z path_y_bottom);
    CmdL (inject_Z (runEnd_x_img + 1)) (inject_Z path_y_bottom);
    CmdL (inject_Z (runEnd_x_img + 1)) (inject_Z path_y_top);
    CmdL (inject_Z runStart_x_img) (inject_Z path_y_top);
    CmdZ ].

(** [while (x_img < imageData.width)] for one row, from column [x_img]. *)
Fixpoint trace_row (fuel : nat) (imageData : ImageData) (charPixelHeight : Z)
         (y_img x_img : nat) : option Path :=
  if (x_img <? img_width imageData)%nat then
    match fuel with
    | O => None
    | S fuel' =>
        if opaque_at imageData y_img x_img then
          let runStart_x_img := x_img in
          match run_end (img_width imageData) imageData y_img x_img with
          | None => None
          | Some x_img' =>
              let runEnd_x_img := Z.of_nat x_img' - 1 in
              match trace_row fuel' imageData charPixelHeight y_img x_img' with
              | None => None
              | Some rest =>
                  Some (run_rectangle charPixelHeight y_img
                          (Z.of_nat runStart_x_img) runEnd_x_img ++ rest)
              end
          end
        else trace_row fuel' imageData charPixelHeight y_img (S x_img)
    end
  else Some [].

(** [for (y_img = 0; y_img < imageData.height; y_img++)]. *)
Fixpoint trace_rows (imageData : ImageData) (charPixelHeight : Z) (rows : list nat) : option Path :=
  match rows with
  | [] => Some []
  | y_img :: rows' =>
      match trace_row (img_width imageData) imageData charPixelHeight y_img 0 with
      | None => None
      | Some p =>
          match trace_rows imageData charPixelHeight rows' with
          | None => None
          | Some q => Some (p ++ q)
          end
      end
  end.

(** The [path] component of the result (the PNG [dataUrl] is a preview
    only).  [None] would mean that a loop ran out of fuel. *)
Definition imageDataToOpentypePath (imageData : ImageData) (charPixelHeight : Z) : option Path :=
  trace_rows imageData charPixelHeight (seq 0 (img_height imageData)).

(** *** Glyph transforms *)

Record FontAssemblyGlyphData := mkFontAssemblyGlyphData {
  fa_char : string;
  fa_path : Path;
  fa_width : Q;
  fa_height : Q;
  fa_xOffset : Q;
  fa_yOffset : Q;
  fa_scale : Q
}.

Definition clonePath (originalPath : Path) : Path :=
  map (fun cmd => cmd) originalPath.

Definition scale_command (scaleFactor originX originY : Q) (cmd : PathCommand) : PathCommand :=
  let sx v := (originX + (v - originX) * scaleFactor)%Q in
  let sy v := (originY + (v - originY) * scaleFactor)%Q in
  match cmd with
  | CmdM x y => CmdM (sx x) (sy y)
  | CmdL x y => CmdL (sx x) (sy y)
  | CmdC x1 y1 x2 y2 x y => CmdC (sx x1) (sy y1) (sx x2) (sy y2) (sx x) (sy y)
  | CmdQ x1 y1 x y => CmdQ (sx x1) (sy y1) (sx x) (sy y)
  | CmdZ => CmdZ
  end.

Definition scalePath (path : Path) (scaleFactor originX originY : Q) : Path :=
  if Qeq_bool scaleFactor 1 then path
  else map (scale_command scaleFactor originX originY) path.

Definition translate_command (dx dy : Q) (cmd : PathCommand) : PathCommand :=
  match cmd with
  | CmdM x y => CmdM (x + dx)%Q (y + dy)%Q
  | CmdL x y => CmdL (x + dx)%Q (y + dy)%Q
  | CmdC x1 y1 x2 y2 x y =>
      CmdC (x1 + dx)%Q (y1 + dy)%Q (x2 + dx)%Q (y2 + dy)%Q (x + dx)%Q (y + dy)%Q
  | CmdQ x1 y1 x y => CmdQ (x1 + dx)%Q (y1 + dy)%Q (x + dx)%Q (y + dy)%Q
  | CmdZ => CmdZ
  end.

Definition translatePath (path : Path) (dx dy : Q) : Path :=
  if Qeq_bool dx 0 && Qeq_bool dy 0 then path
  else map (translate_command dx dy) path.

(** *** Font assembly *)

Definition Math_round (x : Q) : Z := Qfloor (x + (1 # 2))%Q.
Definition Math_floor (x : Q) : Z := Qfloor x.

Record OtGlyph := mkOtGlyph {
  ot_name : string;
  ot_unicode : Z;
  ot_advanceWidth : Z;
  ot_path : Path
}.

(** The options given to [new opentype.Font]; [toArrayBuffer] is the
    library's serializer of exactly this record. *)
Record Font := mkFont {
  familyName : string;
  styleName : string;
  unitsPerEm : Z;
  ascender : Z;
  descender : Z;
  glyphs : list OtGlyph
}.

(** [s.charCodeAt(0)]; [None] is [NaN] (the empty string). *)
Definition charCodeAt0 (s : string) : option Z :=
  match s with
  | EmptyString => None
  | String a _ => Some (Z.of_nat (nat_of_ascii a))
  end.

(** [glyph.width || Math.round(unitsPerEm / 2)]: the right operand is
    taken when the left one is falsy, that is, when it is [0]. *)
Definition width_or_default (width : Q) (upm : Z) : Q :=
  if Qeq_bool width 0 then inject_Z (Math_round (inject_Z upm / 2)) else width.

(** The transformed outline of one glyph. *)
Definition final_path (glyph : FontAssemblyGlyphData) : Path :=
  if (0 <? length (fa_path glyph))%nat then
    translatePath (scalePath (clonePath (fa_path glyph)) (fa_scale glyph) 0 0)
                  (fa_xOffset glyph) (fa_yOffset glyph)
  else
    translatePath (scalePath [] (fa_scale glyph) 0 0) (fa_xOffset glyph) (fa_yOffset glyph).

(** Body of [glyphsData.forEach] in [assembleTtfFont]: the glyph pushed for
    one entry, if any. *)
Definition assemble_glyph (upm : Z) (glyph : FontAssemblyGlyphData) : list OtGlyph :=
  if String.eqb (fa_char glyph) " " then []
  else
    match charCodeAt0 (fa_char glyph) with
    | None => []
    | Some unicode =>
        let finalPath := final_path glyph in
        let advanceWidth :=
          Z.max 1 (Math_round (width_or_default (fa_width glyph) upm * fa_scale glyph)) in
        [mkOtGlyph (fa_char glyph) unicode advanceWidth finalPath]
    end.

Definition assembleTtfFont (glyphsData : list FontAssemblyGlyphData)
           (fontFamily : string) (upm : Z) : Font :=
  let ascent := Math_round (inject_Z upm * (85 # 100)) in
  let descent := - Math_round (inject_Z upm * (15 # 100)) in
  let notdefAdvanceWidth := Math_round (inject_Z upm / 2) in
  let notdefBoxWidth := (inject_Z notdefAdvanceWidth / 2)%Q in
  let notdefBoxHeight := inject_Z (Math_round (inject_Z ascent * (7 # 10))) in
  let notdefPath :=
    [ CmdM 0 0; CmdL notdefBoxWidth 0; CmdL notdefBoxWidth notdefBoxHeight;
      CmdL 0 notdefBoxHeight; CmdZ ] in
  let notdef := mkOtGlyph ".notdef" 0 notdefAdvanceWidth notdefPath in
  let spaceGlyphEntry := List.find (fun g => String.eqb (fa_char g) " ") glyphsData in
  let spaceAdvanceWidth :=
    match spaceGlyphEntry with
    | Some g => Z.max 1 (Math_round (fa_width g * fa_scale g))
    | None => Math_floor (inject_Z upm / 3)
    end in
  let space := mkOtGlyph "space" 32 spaceAdvanceWidth [] in
  mkFont fontFamily "Medium" upm ascent descent
         (notdef :: space :: flat_map (assemble_glyph upm) glyphsData).

(** ** The application component: [handleFetchAndProcessCharacters] *)

Definition UNITS_PER_EM : Z := 256.

(** [GlyphData.status]. *)
Inductive Status :=
| st_pending | st_fetching | st_processing | st_converting | st_done | st_error.

(** [types.ts], [GlyphData], without the two preview URLs.  The [id]
    ([char-timestamp-random], distinct for distinct characters) is the
    position of the character in [uniqueChars]. *)
Record GlyphData := mkGlyphData {
  gd_id : nat;
  gd_char : string;
  gd_status : Status;
  gd_opentypePath : option Path;
  gd_width : option Q;
  gd_visualWidth : option Z;
  gd_visualHeight : option Z;
  gd_xOffset : Q;
  gd_yOffset : Q;
  gd_scale : Q;
  gd_errorMessage : option string
}.

(** *** The frequency table

    [counts] is a plain JavaScript object.  Its own property keys are
    enumerated with the array indices ([0 <= k < 2^32 - 1]) first, in
    ascending numeric order, and then every other key in the order of
    creation.  A key is kept as the integer it spells; [parseInt] reads that
    integer back. *)
Definition JsObject := list (Z * nat).

Definition is_array_index (k : Z) : bool := (0 <=? k) && (k <? 2 ^ 32 - 1).

(** [o[k]]. *)
Fixpoint obj_get (o : JsObject) (k : Z) : option nat :=
  match o with
  | [] => None
  | (k', v) :: o' => if k =? k' then Some v else obj_get o' k
  end.

(** [o[k] = v]. *)
Fixpoint obj_set (o : JsObject) (k : Z) (v : nat) : JsObject :=
  match o with
  | [] => [(k, v)]
  | (k', v') :: o' =>
      if k =? k' then (k', v) :: o'
      else if is_array_index k && (negb (is_array_index k') || (k <? k'))
           then (k, v) :: (k', v') :: o'
           else (k', v') :: obj_set o' k v
  end.

(** [Object.keys(o)]. *)
Definition Object_keys (o : JsObject) : list Z := map fst o.

(** [acc[val] = (acc[val] || 0) + 1; return acc]. *)
Definition count_step (acc : JsObject) (val : Z) : JsObject :=
  obj_set acc val (default 0%nat (obj_get acc val) + 1)%nat.

(** [Array.prototype.reduce] without an initial value; [None] is the
    [TypeError] raised on an empty array. *)
Definition reduce1 {A : Type} (f : A -> A -> A) (l : list A) : option A :=
  match l with
  | [] => None
  | a :: l' => Some (foldl f a l')
  end.

(** [x > y] on two possibly [undefined] counts. *)
Definition js_gt_count (x y : option nat) : bool :=
  match x, y with
  | Some a, Some b => (b <? a)%nat
  | _, _ => false
  end.

(** [(a, b) => (counts[a] > counts[b] ? a : b)]. *)
Definition pick_key (counts : JsObject) (a b : Z) : Z :=
  if js_gt_count (obj_get counts a) (obj_get counts b) then a else b.

(** A JavaScript number that may be [NaN]. *)
Inductive jsnum :=
| Num (q : Q)
| NaN.

Definition isNaN (n : jsnum) : bool :=
  match n with NaN => true | Num _ => false end.

(** [parseInt(modeMaxYStr, 10)] on a key of the table.  The key of an
    integer that a number holds exactly (magnitude at most 2^53) is its
    decimal writing, and reading it back gives the integer; the row
    indices the table is built from are of that kind. *)
Definition parseInt_key (k : Z) : jsnum := Num (inject_Z k).

(** [RENDER_SIZE * 0.8]. *)
Definition fallback_baseline : Q := (inject_Z RENDER_SIZE * (8 # 10))%Q.

(** The baseline computation between the two stages.  [None]: the
    [reduce] over the keys raised. *)
Definition determine_baseline (maxYValues : list Z) : option Q :=
  let baselineY := Num 0 in
  let baselineY :=
    if (0 <? List.length maxYValues)%nat then
      let counts := foldl count_step [] maxYValues in
      match reduce1 (pick_key counts) (Object_keys counts) with
      | Some k => Some (parseInt_key k)
      | None => None
      end
    else Some baselineY in
  match baselineY with
  | None => None
  | Some b => Some (if isNaN b then fallback_baseline
                    else match b with Num q => q | NaN => 0%Q end)
  end.

(** *** The two stages *)

Record Intermediate := mkIntermediate {
  ir_id : nat;
  ir_char : string;
  ir_processedData : ProcessedCharacter
}.

(** [prev.map(g => (g.id === id ? f(g) : g))]. *)
Definition update_glyph (id : nat) (f : GlyphData -> GlyphData) (prev : list GlyphData)
  : list GlyphData :=
  map (fun g => if (gd_id g =? id)%nat then f g else g) prev.

Definition with_status (st : Status) (g : GlyphData) : GlyphData :=
  mkGlyphData (gd_id g) (gd_char g) st (gd_opentypePath g) (gd_width g)
              (gd_visualWidth g) (gd_visualHeight g) (gd_xOffset g) (gd_yOffset g)
              (gd_scale g) (gd_errorMessage g).

Definition with_error (errorMessage : string) (g : GlyphData) : GlyphData :=
  mkGlyphData (gd_id g) (gd_char g) st_error (gd_opentypePath g) (gd_width g)
              (gd_visualWidth g) (gd_visualHeight g) (gd_xOffset g) (gd_yOffset g)
              (gd_scale g) (Some errorMessage).

(** [Array.from(new Set(charset.split('')))]: first occurrences, in order. *)
Fixpoint unique_chars (seen : list ascii) (cs : list ascii) : list ascii :=
  match cs with
  | [] => []
  | c :: cs' =>
      if bool_decide (c ∈ seen) then unique_chars seen cs'
      else c :: unique_chars (c :: seen) cs'
  end.

Definition char_string (c : ascii) : string := String c EmptyString.

Definition initial_glyph (i : nat) (c : ascii) : GlyphData :=
  mkGlyphData i (char_string c) st_pending None None None None 0 0 1 None.

Record Stage1 := mkStage1 {
  s1_glyphs : list GlyphData;
  s1_intermediateResults : list Intermediate;
  s1_maxYValues : list Z
}.

(** One iteration of the stage-1 loop.  [fetch] stands for
    [fetchCharacterImage]: a decoded bitmap, or the rejection message. *)
Definition stage1_step (fetch : string -> ImageData + string) (st : Stage1)
           (ic : nat * ascii) : Stage1 :=
  let id := fst ic in
  let char := char_string (snd ic) in
  let gl := update_glyph id (with_status st_fetching) (s1_glyphs st) in
  match fetch char with
  | inl image =>
      let gl := update_glyph id (with_status st_processing) gl in
      let processedData := processImage image in
      mkStage1 gl
        (s1_intermediateResults st ++ [mkIntermediate id char processedData])
        (if pc_maxY processedData =? -1 then s1_maxYValues st
         else s1_maxYValues st ++ [pc_maxY processedData])
  | inr errorMessage =>
      mkStage1 (update_glyph id (with_error errorMessage) gl)
               (s1_intermediateResults st) (s1_maxYValues st)
  end.

Definition stage1 (fetch : string -> ImageData + string) (uniqueChars : list ascii) : Stage1 :=
  foldl (stage1_step fetch)
        (mkStage1 (imap initial_glyph uniqueChars) [] [])
        (imap pair uniqueChars).

(** [finalGlyphData] of stage 2, given the traced outline. *)
Definition finalGlyphData (baselineY : Q) (ir : Intermediate) (path : Path) : GlyphData :=
  let processedData := ir_processedData ir in
  let yOffset := (baselineY - inject_Z (pc_maxY processedData))%Q in
  let finalAdvanceWidth :=
    if String.eqb (ir_char ir) " " then Math_floor (inject_Z UNITS_PER_EM / 3)
    else pc_width processedData in
  mkGlyphData (ir_id ir) (ir_char ir) st_done (Some path)
              (Some (inject_Z finalAdvanceWidth))
              (Some (pc_width processedData)) (Some (pc_height processedData))
              0
              (if pc_maxY processedData =? -1 then 0%Q else yOffset)
              1 None.

(** One iteration of the stage-2 loop; [None]: the tracer ran out of fuel. *)
Definition stage2_step (baselineY : Q) (st : option (list GlyphData)) (ir : Intermediate)
  : option (list GlyphData) :=
  match st with
  | None => None
  | Some gl =>
      let gl := update_glyph (ir_id ir) (with_status st_converting) gl in
      match imageDataToOpentypePath (pc_imageData (ir_processedData ir))
                                    (pc_height (ir_processedData ir)) with
      | None => None
      | Some path =>
          Some (update_glyph (ir_id ir) (fun _ => finalGlyphData baselineY ir path) gl)
      end
  end.

Definition stage2 (baselineY : Q) (gl : list GlyphData) (irs : list Intermediate)
  : option (list GlyphData) :=
  foldl (stage2_step baselineY) (Some gl) irs.

(** The glyph list the handler leaves in the component state, for a run
    that passes the guard on the busy flags and the project details. *)
Definition handleFetchAndProcessCharacters (fetch : string -> ImageData + string)
           (charset : string) : option (list GlyphData) :=
  let uniqueChars := unique_chars [] (list_ascii_of_string charset) in
  let st := stage1 fetch uniqueChars in
  match determine_baseline (s1_maxYValues st) with
  | None => None
  | Some baselineY => stage2 baselineY (s1_glyphs st) (s1_intermediateResults st)
  end.

(** *** Progress

    The values the two loops pass to [setProgress], after the initial
    [setProgress(0)]: [Math.round(((i + 1) / n) * 50)] in stage 1 over [n]
    characters and [50 + Math.round(((i + 1) / m) * 50)] in stage 2 over
    [m] results. *)
Definition stage1_progress (n : nat) : list Z :=
  map (fun i => Math_round (inject_Z (Z.of_nat i + 1) / inject_Z (Z.of_nat n) * 50))
      (seq 0 n).

Definition stage2_progress (m : nat) : list Z :=
  map (fun i => 50 + Math_round (inject_Z (Z.of_nat i + 1) / inject_Z (Z.of_nat m) * 50))
      (seq 0 m).

Definition progress_trace (n m : nat) : list Z :=
  0 :: stage1_progress n ++ stage2_progress m.

(** *** Export: [handleAssembleFontFile] and the glyph editor *)

(** [g.status === 'done' && g.opentypePath && g.width !== undefined &&
    g.visualHeight !== undefined]. *)
Definition valid_for_assembly (g : GlyphData) : bool :=
  match gd_status g, gd_opentypePath g, gd_width g, gd_visualHeight g with
  | st_done, Some _, Some _, Some _ => true
  | _, _, _, _ => false
  end.

(** The entry built for one glyph.  The casts [as OpentypePath] and
    [as number] let an absent field through as [undefined]; in
    [assembleTtfFont] an absent path fails the [instanceof] test like an
    empty one, and an absent width is falsy like 0. *)
Definition to_assembly_data (g : GlyphData) : FontAssemblyGlyphData :=
  mkFontAssemblyGlyphData (gd_char g) (default [] (gd_opentypePath g))
    (default 0%Q (gd_width g)) (inject_Z (default 0 (gd_visualHeight g)))
    (gd_xOffset g) (gd_yOffset g) (gd_scale g).

(** The body of [handleAssembleFontFile] after its guard: the font handed
    to the serializer, or the message put in [globalError]. *)
Definition assemble_valid_glyphs (glyphsData : list GlyphData)
           (currentFontFamilyName : string) : Font + string :=
  let validGlyphsForAssembly := List.filter valid_for_assembly glyphsData in
  if (List.length validGlyphsForAssembly =? 0)%nat then
    inr "No successfully processed characters available to generate a font."%string
  else
    let fontAssemblyData := map to_assembly_data validGlyphsForAssembly in
    inl (assembleTtfFont fontAssemblyData currentFontFamilyName UNITS_PER_EM).

(** [handleAssembleFontFile]; [None]: the guard
    [isFetchingChars || isGeneratingTtf || !charactersFetchedSuccessfully
     || !currentFontFamilyName] returned, nothing was done. *)
Definition handleAssembleFontFile (isFetchingChars isGeneratingTtf
                                   charactersFetchedSuccessfully : bool)
           (glyphsData : list GlyphData) (currentFontFamilyName : string)
  : option (Font + string) :=
  if isFetchingChars || isGeneratingTtf || negb charactersFetchedSuccessfully
     || String.eqb currentFontFamilyName ""
  then None
  else Some (assemble_valid_glyphs glyphsData currentFontFamilyName).

(** [anySuccess] at the end of stage 2, which becomes
    [charactersFetchedSuccessfully]: set by every iteration that
    completes. *)
Definition anySuccess (intermediateResults : list Intermediate) : bool :=
  foldl (fun _ _ => true) false intermediateResults.

(** [handleUpdateGlyphDetails]:
    [prevGlyphs.map(g => g.id === updatedGlyph.id ? updatedGlyph : g)]. *)
Definition handleUpdateGlyphDetails (updatedGlyph : GlyphData) (prevGlyphs : list GlyphData)
  : list GlyphData :=
  map (fun g => if (gd_id g =? gd_id updatedGlyph)%nat then updatedGlyph else g) prevGlyphs.

(** [handleSave] of the glyph editor:
    [{ ...glyph, xOffset, yOffset, scale, width: advanceWidth }]. *)
Definition editor_save (glyph : GlyphData) (xOffset yOffset scale advanceWidth : Q) : GlyphData :=
  mkGlyphData (gd_id glyph) (gd_char glyph) (gd_status glyph) (gd_opentypePath glyph)
              (Some advanceWidth) (gd_visualWidth glyph) (gd_visualHeight glyph)
              xOffset yOffset scale (gd_errorMessage glyph).

(** [getReferenceLines] of the glyph editor: the guide lines drawn in the
    preview, in font units. *)
Record ReferenceLines := mkReferenceLines {
  rl_baseline : Z;
  rl_descender : Z;
  rl_xHeight : Z;
  rl_capHeight : Z;
  rl_ascender : Z
}.

Definition getReferenceLines (upm : Z) : ReferenceLines :=
  mkReferenceLines 0
    (- Math_round (inject_Z upm * (22 # 100)))
    (Math_round (inject_Z upm * (45 # 100)))
    (Math_round (inject_Z upm * (70 # 100)))
    (Math_round (inject_Z upm * (82 # 100))).

(** ** Notions the properties are stated with *)

(** The classification [processImage] gives pixel [(x, y)] of the input:
    foreground when the background test fails on its colour channels. *)
Definition foreground_at (image : ImageData) (x y : nat) : bool :=
  let i := pixel_index (img_width image) y x in
  negb (is_background (img_data image !! i) (img_data image !! (i + 1)%nat)
                      (img_data image !! (i + 2)%nat)).

(** A maximal horizontal run of opaque pixels in row [r]: columns
    [x0 .. x1], opaque throughout, not extendable to the left or to the
    right. *)
Definition row_run (imageData : ImageData) (r x0 x1 : nat) : Prop :=
  (x0 <= x1)%nat /\ (x1 < img_width imageData)%nat /\
  (forall x, (x0 <= x)%nat -> (x <= x1)%nat -> opaque_at imageData r x = true) /\
  (x0 = 0%nat \/ opaque_at imageData r (x0 - 1) = false) /\
  (S x1 = img_width imageData \/ opaque_at imageData r (S x1) = false).

Definition maximal_run (imageData : ImageData) (run : nat * nat * nat) : Prop :=
  let '(r, x0, x1) := run in
  (r < img_height imageData)%nat /\ row_run imageData r x0 x1.

(** Column [x] is not inside a run of row [y] together with column
    [x - 1]: the scan of a row is only ever resumed at such a column. *)
Definition run_boundary (imageData : ImageData) (y x : nat) : Prop :=
  x = 0%nat \/ opaque_at imageData y (x - 1) = false \/
  (img_width imageData <= x)%nat \/ opaque_at imageData y x = false.

(** The rectangle of the run of columns [x0 .. x1] in row [r] of a bitmap
    of height [H], as a closed contour. *)
Definition spec_rectangle (H : Z) (run : nat * nat * nat) : Path :=
  let '(r, x0, x1) := run in
  let r := Z.of_nat r in
  let x0 := Z.of_nat x0 in
  let x1 := Z.of_nat x1 in
  [ CmdM (inject_Z x0) (inject_Z (H - 1 - r));
    CmdL (inject_Z (x1 + 1)) (inject_Z (H - 1 - r));
    CmdL (inject_Z (x1 + 1)) (inject_Z (H - r));
    CmdL (inject_Z x0) (inject_Z (H - r));
    CmdZ ].

(** *** Rasterizing a polygonal outline *)

Definition Point := (Q * Q)%type.

Definition Qltb (a b : Q) : bool := negb (Qle_bool b a).

(** The closed contours of a path made of moves, lines and closes; [cur]
    is the contour being built.  [None]: the path has a curve. *)
Fixpoint contours (cur : list Point) (p : Path) : option (list (list Point)) :=
  match p with
  | [] => Some (match cur with [] => [] | _ => [cur] end)
  | CmdM x y :: p' =>
      match contours [(x, y)] p' with
      | Some cs => Some (match cur with [] => cs | _ => cur :: cs end)
      | None => None
      end
  | CmdL x y :: p' => contours (cur ++ [(x, y)]) p'
  | CmdZ :: p' =>
      match contours [] p' with
      | Some cs => Some (cur :: cs)
      | None => None
      end
  | _ => None
  end.

(** The edges of a closed contour, the closing edge included. *)
Definition edges (c : list Point) : list (Point * Point) :=
  match c with
  | [] => []
  | a :: c' => combine c (c' ++ [a])
  end.

(** Does the horizontal ray from [p] towards larger x cross the edge
    [a -> b]?  (The usual half-open crossing test.) *)
Definition crosses (p : Point) (e : Point * Point) : bool :=
  let '(px, py) := p in
  let '((x1, y1), (x2, y2)) := e in
  negb (Bool.eqb (Qltb py y1) (Qltb py y2)) &&
  Qltb px ((x2 - x1) * (py - y1) / (y2 - y1) + x1)%Q.

(** [p] is inside the contour when the ray crosses it an odd number of
    times. *)
Definition inside (c : list Point) (p : Point) : bool :=
  foldr (fun e acc => xorb (crosses p e) acc) false (edges c).

(** The centre of pixel [(x, y)] (row [y] counted from the top) of a
    bitmap of height [H], in outline coordinates with one font unit per
    pixel: row [y] is the band between [H - 1 - y] and [H - y]. *)
Definition pixel_centre (H : Z) (x y : nat) : Point :=
  ((inject_Z (Z.of_nat x) + (1 # 2))%Q,
   (inject_Z (H - 1 - Z.of_nat y) + (1 # 2))%Q).

(** Pixel [(x, y)] of the re-rasterized outline: is its centre inside
    some contour of the path? *)
Definition rasterize (path : Path) (H : Z) (x y : nat) : bool :=
  match contours [] path with
  | Some cs => existsb (fun c => inside c (pixel_centre H x y)) cs
  | None => false
  end.

(** Two paths with equal coordinates, command by command. *)
Definition command_eq (c d : PathCommand) : Prop :=
  match c, d with
  | CmdM x y, CmdM x' y' => (x == x' /\ y == y')%Q
  | CmdL x y, CmdL x' y' => (x == x' /\ y == y')%Q
  | CmdC x1 y1 x2 y2 x y, CmdC x1' y1' x2' y2' x' y' =>
      (x1 == x1' /\ y1 == y1' /\ x2 == x2' /\ y2 == y2' /\ x == x' /\ y == y')%Q
  | CmdQ x1 y1 x y, CmdQ x1' y1' x' y' =>
      (x1 == x1' /\ y1 == y1' /\ x == x' /\ y == y')%Q
  | CmdZ, CmdZ => True
  | _, _ => False
  end.

Definition path_eq (p q : Path) : Prop := Forall2 command_eq p q.

(** Does a command carry a point? *)
Definition has_point (c : PathCommand) : bool :=
  match c with CmdZ => false | _ => true end.

(** What the Glyph Transform Engine does to an outline in
    [assembleTtfFont], and the same two steps in the other order. *)
Definition scale_then_translate (path : Path) (scale xOffset yOffset : Q) : Path :=
  translatePath (scalePath (clonePath path) scale 0 0) xOffset yOffset.

Definition translate_then_scale (path : Path) (scale xOffset yOffset : Q) : Path :=
  scalePath (translatePath (clonePath path) xOffset yOffset) scale 0 0.

(** A row index that is an array index when used as a property key. *)
Definition row_index (v : Z) : Prop := 0 <= v < 2 ^ 32 - 1.

(** In [cs], [c] occurs before every occurrence of [d]: at a position
    with no [d] at or before it. *)
Definition first_before (cs : list ascii) (c d : ascii) : Prop :=
  exists p, cs !! p = Some c /\ forall q, (q <= p)%nat -> cs !! q <> Some d.

(** The elements of [l] come in the order of [R]. *)
Definition in_order {A : Type} (R : A -> A -> Prop) (l : list A) : Prop :=
  forall i j a b, (i < j)%nat -> l !! i = Some a -> l !! j = Some b -> R a b.

(** Pixel [(x, y)] is within background tolerance: each of its three
    colour channels is within 15 of white (its alpha is not looked at). *)
Definition within_tolerance (image : ImageData) (x y : nat) : Prop :=
  let i := pixel_index (img_width image) y x in
  exists r g b : Z,
    img_data image !! i = Some r /\
    img_data image !! (i + 1)%nat = Some g /\
    img_data image !! (i + 2)%nat = Some b /\
    Z.abs (r - 255) <= 15 /\ Z.abs (g - 255) <= 15 /\ Z.abs (b - 255) <= 15.

(** *** The invariant of the bounding-box scan *)

(** The scan only ever writes alpha bytes. *)
Definition colours_kept (image : ImageData) (d : list Z) : Prop :=
  forall j : nat, (j mod 4 <> 3)%nat -> d !! j = img_data image !! j.

(** What is known of the loop variables once the pixels in [P] have been
    visited: the box contains every visited foreground pixel, and either
    it is still the initial one or each of its sides holds a visited
    foreground pixel. *)
Record scan_inv (image : ImageData) (P : nat -> nat -> Prop) (s : ScanState) : Prop := {
  inv_colours : colours_kept image (sdata s);
  inv_cover : forall x y, P x y -> foreground_at image x y = true ->
                          minX s <= Z.of_nat x <= maxX s /\
                          minY s <= Z.of_nat y <= maxY s;
  inv_tight :
    (minX s = Z.of_nat (img_width image) /\ minY s = Z.of_nat (img_height image) /\
     maxX s = -1 /\ maxY s = -1) \/
    ((exists x y, P x y /\ foreground_at image x y = true /\ Z.of_nat x = minX s) /\
     (exists x y, P x y /\ foreground_at image x y = true /\ Z.of_nat x = maxX s) /\
     (exists x y, P x y /\ foreground_at image x y = true /\ Z.of_nat y = minY s) /\
     (exists x y, P x y /\ foreground_at image x y = true /\ Z.of_nat y = maxY s));
  inv_range : forall x y, P x y -> (x < img_width image)%nat /\ (y < img_height image)%nat
}.

(** Each glyph of the component state sits at the position its [id]
    names. *)
Definition ids_ok (gl : list GlyphData) : Prop :=
  forall i g, gl !! i = Some g -> gd_id g = i.

(** The four channels [processImage] leaves pixel [(x, y)] of the canvas
    with: its colours, and its alpha unless the pixel is background. *)
Definition stripped_pixel (image : ImageData) (x y : nat) : list Z :=
  let i := pixel_index (img_width image) y x in
  [ default 0 (img_data image !! i);
    default 0 (img_data image !! (i + 1)%nat);
    default 0 (img_data image !! (i + 2)%nat);
    if foreground_at image x y then default 0 (img_data image !! (i + 3)%nat) else 0 ].

(** What is known of the pixel data once the pixels in [P] have been
    visited: the alpha bytes of the visited background pixels are 0, and
    nothing else has changed. *)
Record strip_inv (image : ImageData) (P : nat -> nat -> Prop) (s : ScanState) : Prop := {
  strip_length : List.length (sdata s) = List.length (img_data image);
  strip_zeroed : forall x y, P x y -> foreground_at image x y = false ->
      sdata s !! (pixel_index (img_width image) y x + 3)%nat
      = (fun _ => 0) <$> (img_data image !! (pixel_index (img_width image) y x + 3)%nat);
  strip_kept : forall j : nat,
      (forall x y, P x y -> foreground_at image x y = false ->
                   j <> (pixel_index (img_width image) y x + 3)%nat) ->
      sdata s !! j = img_data image !! j
}.

(** The points of the commands of a path, control points included. *)
Definition command_points (c : PathCommand) : list Point :=
  match c with
  | CmdM x y => [(x, y)]
  | CmdL x y => [(x, y)]
  | CmdC x1 y1 x2 y2 x y => [(x1, y1); (x2, y2); (x, y)]
  | CmdQ x1 y1 x y => [(x1, y1); (x, y)]
  | CmdZ => []
  end.

Definition path_points (p : Path) : list Point := flat_map command_points p.

(** What stage 1 does to the glyph of character [c], and the results it
    pushes for a list of indexed characters. *)
Definition stage1_glyph (fetch : string -> ImageData + string) (c : ascii) (g : GlyphData)
  : GlyphData :=
  match fetch (char_string c) with
  | inl _ => with_status st_processing (with_status st_fetching g)
  | inr errorMessage => with_error errorMessage (with_status st_fetching g)
  end.

Definition stage1_results (fetch : string -> ImageData + string) (ics : list (nat * ascii))
  : list Intermediate :=
  flat_map (fun ic => match fetch (char_string (snd ic)) with
                      | inl image => [mkIntermediate (fst ic) (char_string (snd ic))
                                                     (processImage image)]
                      | inr _ => []
                      end) ics.

(** ** Sample inputs *)

(** Two near-white pixels. *)
Definition white_2x1 : ImageData :=
  mkImageData 2 1 [255; 255; 255; 255; 250; 245; 240; 255].

(** A 3x2 bitmap with two black pixels in column 1 and a dark one at the
    bottom right. *)
Definition dot_3x2 : ImageData :=
  mkImageData 3 2 [255; 255; 255; 255;   0; 0; 0; 255;   255; 255; 255; 255;
                   255; 255; 255; 255;   0; 0; 0; 255;   10; 10; 10; 255].

Definition maxY_sample : list Z := [5; 3; 5; 7; 3; 5].

(** 3 and 7 both occur twice. *)
Definition maxY_tied : list Z := [7; 3; 7; 3; 5].

(** Values that are not all array indices as keys: a negative one and
    2^32 - 1. *)
Definition maxY_wide : list Z := [-3; 4294967295; -3; 7].

(** The outline of a blank glyph, and a one-pixel outline. *)
Definition blank_outline : Path := [].

Definition pixel_outline : Path :=
  [CmdM 0 0; CmdL 1 0; CmdL 1 1; CmdL 0 1; CmdZ].

(** A glyph the editor has given the advance width 0. *)
Definition zero_width_glyph : FontAssemblyGlyphData :=
  mkFontAssemblyGlyphData "A" pixel_outline 0 1 0 0 1.

(** A source that renders [A] and the space and nothing else. *)
Definition sample_fetch (c : string) : ImageData + string :=
  if String.eqb c "A" then inl dot_3x2
  else if String.eqb c " " then inl white_2x1
  else inr "not rendered"%string.

(** The final glyph of character [c] at index [i] of a batch. *)
Definition batch_glyph (fetch : string -> ImageData + string) (baselineY : Q)
           (i : nat) (c : ascii) : GlyphData :=
  match fetch (char_string c) with
  | inl image =>
      finalGlyphData baselineY (mkIntermediate i (char_string c) (processImage image))
        (default [] (imageDataToOpentypePath (pc_imageData (processImage image))
                                             (pc_height (processImage image))))
  | inr errorMessage =>
      mkGlyphData i (char_string c) st_error None None None None 0 0 1 (Some errorMessage)
  end.

Definition fetched (fetch : string -> ImageData + string) (c : ascii) : bool :=
  match fetch (char_string c) with inl _ => true | inr _ => false end.

(** * Properties *)

(** ** Foreground Extractor *)

Lemma pixel_index_mod w y x k :
  (k < 4)%nat -> ((pixel_index w y x + k) mod 4 = k)%nat.
Proof.
  intros Hk. unfold pixel_index.
  rewrite Nat.add_comm, Nat.Div0.mod_add. apply Nat.mod_small, Hk.
Qed.

Lemma scan_pixel_classifies image s x y :
  colours_kept image (sdata s) ->
  is_background (sdata s !! pixel_index (img_width image) y x)
                (sdata s !! (pixel_index (img_width image) y x + 1)%nat)
                (sdata s !! (pixel_index (img_width image) y x + 2)%nat)
  = negb (foreground_at image x y).
Proof.
  intros Hc. unfold foreground_at. rewrite negb_involutive.
  pose proof (pixel_index_mod (img_width image) y x 0) as H0.
  pose proof (pixel_index_mod (img_width image) y x 1) as H1.
  pose proof (pixel_index_mod (img_width image) y x 2) as H2.
  rewrite Nat.add_0_r in H0.
  rewrite !Hc by lia. reflexivity.
Qed.

(** Reuse a visited foreground pixel as the witness of a side of the box. *)
Ltac visited_witness :=
  match goal with
  | HP : ?P ?a ?b |- ex _ =>
      solve [exists a, b; split; [left; exact HP | split; assumption]]
  end.

Lemma scan_pixel_inv image P s x y :
  (x < img_width image)%nat -> (y < img_height image)%nat ->
  scan_inv image P s ->
  scan_inv image (fun x' y' => P x' y' \/ (x' = x /\ y' = y))
           (scan_pixel (img_width image) y s x).
Proof.
  intros Hx Hy [Hc Hcov Ht Hr]. unfold scan_pixel.
  rewrite scan_pixel_classifies by exact Hc.
  destruct (foreground_at image x y) eqn:Hfg; simpl.
  - (* a foreground pixel: the box grows to hold it *)
    split; simpl.
    + exact Hc.
    + intros x' y' [HP | [-> ->]] Hfg'.
      * specialize (Hcov _ _ HP Hfg').
        repeat match goal with |- context [if ?a <? ?b then _ else _] =>
          destruct (Z.ltb_spec a b) end; lia.
      * repeat match goal with |- context [if ?a <? ?b then _ else _] =>
          destruct (Z.ltb_spec a b) end; lia.
    + right.
      destruct Ht as [(H1 & H2 & H3 & H4) | (H1 & H2 & H3 & H4)].
      * rewrite H1, H2, H3, H4.
        repeat match goal with |- context [if ?a <? ?b then _ else _] =>
          destruct (Z.ltb_spec a b) end; try lia.
        repeat split; exists x, y; auto.
      * destruct H1 as (x1 & y1 & ? & ? & ?), H2 as (x2 & y2 & ? & ? & ?),
                 H3 as (x3 & y3 & ? & ? & ?), H4 as (x4 & y4 & ? & ? & ?).
        repeat split;
          match goal with |- context [if ?a <? ?b then _ else _] =>
            destruct (Z.ltb_spec a b) end;
          first [ solve [exists x, y; split; [right; auto | auto]]
                | visited_witness ].
    + intros x' y' [HP | [-> ->]]; auto.
  - (* a background pixel: only its alpha byte is written *)
    split; simpl.
    + intros j Hj. rewrite list_lookup_insert_ne.
      * apply Hc, Hj.
      * intros <-. rewrite pixel_index_mod in Hj; lia.
    + intros x' y' [HP | [-> ->]] Hfg'; [auto | congruence].
    + destruct Ht as [Ht | (H1 & H2 & H3 & H4)]; [left; exact Ht | right].
      destruct H1 as (x1 & y1 & ? & ? & ?), H2 as (x2 & y2 & ? & ? & ?),
               H3 as (x3 & y3 & ? & ? & ?), H4 as (x4 & y4 & ? & ? & ?).
      repeat split; visited_witness.
    + intros x' y' [HP | [-> ->]]; auto.
Qed.

Lemma scan_inv_ext image (P P' : nat -> nat -> Prop) s :
  (forall x y, P x y <-> P' x y) -> scan_inv image P s -> scan_inv image P' s.
Proof.
  intros HPP [Hc Hcov Ht Hr]. split.
  - exact Hc.
  - intros x y HP. apply Hcov, HPP, HP.
  - destruct Ht as [Ht | (H1 & H2 & H3 & H4)]; [left; exact Ht | right].
    destruct H1 as (x1 & y1 & ? & ? & ?), H2 as (x2 & y2 & ? & ? & ?),
             H3 as (x3 & y3 & ? & ? & ?), H4 as (x4 & y4 & ? & ? & ?).
    repeat split;
      match goal with
      | HP : P ?a ?b |- _ =>
          solve [exists a, b; split; [apply HPP; exact HP | split; assumption]]
      end.
  - intros x y HP. apply Hr, HPP, HP.
Qed.

(** The inner loop, after its first [n] columns. *)
Lemma scan_columns_inv image P s y n :
  (n <= img_width image)%nat -> (y < img_height image)%nat ->
  scan_inv image P s ->
  scan_inv image (fun x' y' => P x' y' \/ (y' = y /\ (x' < n)%nat))
           (foldl (scan_pixel (img_width image) y) s (seq 0 n)).
Proof.
  intros Hn Hy Hs. induction n as [|n IH].
  - simpl. eapply scan_inv_ext; [|exact Hs]. intros; split; [auto | intros [?|[_ ?]]; [auto | lia]].
  - rewrite seq_S, foldl_app. simpl.
    eapply scan_inv_ext; [|apply scan_pixel_inv; [| |apply IH]]; try lia.
    intros x' y'. simpl. split.
    + intros [[?|[? ?]]|[? ?]]; auto; right; split; auto; lia.
    + intros [?|[? ?]]; auto.
      destruct (Nat.eq_dec x' n); [right; auto | left; right; split; auto; lia].
Qed.

(** The outer loop, after its first [m] rows. *)
Lemma scan_rows_inv image m :
  (m <= img_height image)%nat ->
  scan_inv image (fun x' y' => (x' < img_width image)%nat /\ (y' < m)%nat)
           (foldl (scan_row (img_width image))
                  (mkScanState (Z.of_nat (img_width image)) (Z.of_nat (img_height image))
                               (-1) (-1) (img_data image))
                  (seq 0 m)).
Proof.
  intros Hm. induction m as [|m IH].
  - simpl. split; simpl.
    + intros j _. reflexivity.
    + intros x y [_ Hy]. lia.
    + left. auto.
    + intros x y [_ Hy]. lia.
  - rewrite seq_S, foldl_app. simpl. unfold scan_row at 1.
    eapply scan_inv_ext; [|apply scan_columns_inv; [reflexivity| |apply IH]]; try lia.
    intros x' y'. simpl. split.
    + intros [[? ?]|[? ?]]; split; auto; lia.
    + intros [? ?]. destruct (Nat.eq_dec y' m); [right; auto | left; split; auto; lia].
Qed.

Lemma scan_image_inv image :
  scan_inv image (fun x y => (x < img_width image)%nat /\ (y < img_height image)%nat)
           (scan_image image).
Proof. apply scan_rows_inv. reflexivity. Qed.

(** The classification of the code is the tolerance test of the
    specification. *)
Lemma foreground_at_false image x y :
  foreground_at image x y = false <-> within_tolerance image x y.
Proof.
  unfold foreground_at, within_tolerance, is_background, js_ge, js_le,
    BG_COLOR_R, BG_COLOR_G, BG_COLOR_B, BG_COLOR_TOLERANCE.
  rewrite negb_false_iff. split.
  - destruct (img_data image !! pixel_index (img_width image) y x) as [r|]; [|discriminate].
    destruct (img_data image !! (pixel_index (img_width image) y x + 1)%nat) as [g|];
      [|rewrite ?andb_false_r; discriminate].
    destruct (img_data image !! (pixel_index (img_width image) y x + 2)%nat) as [b|];
      [|rewrite ?andb_false_r; discriminate].
    rewrite !andb_true_iff, !Z.leb_le. intros H.
    exists r, g, b. repeat split; lia.
  - intros (r & g & b & -> & -> & -> & Hr & Hg & Hb).
    rewrite !andb_true_iff, !Z.leb_le. lia.
Qed.

(** C6. A bitmap whose pixels are all within background tolerance gives
    the empty sentinel: [processImage] returns the record with
    [maxY = -1], [width = 1], [height = 1] and a 1x1 bitmap whose four
    channels are 0 (fully transparent); it has no failing path. *)
Theorem processImage_all_background (image : ImageData) :
  (forall x y, (x < img_width image)%nat -> (y < img_height image)%nat ->
               within_tolerance image x y) ->
  processImage image
  = mkProcessedCharacter " " (mkImageData 1 1 [0; 0; 0; 0]) 1 1 (-1).
Proof.
  intros Hbg.
  destruct (scan_image_inv image) as [_ _ Ht _].
  unfold processImage.
  destruct Ht as [(_ & _ & HX & _) | ((x & y & [Hx Hy] & Hfg & _) & _)].
  - rewrite HX. reflexivity.
  - specialize (Hbg x y Hx Hy).
    apply foreground_at_false in Hbg. congruence.
Qed.

Lemma processImage_all_background_witness :
  (forall x y, (x < img_width white_2x1)%nat -> (y < img_height white_2x1)%nat ->
               within_tolerance white_2x1 x y) /\
  processImage white_2x1
  = mkProcessedCharacter " " (mkImageData 1 1 [0; 0; 0; 0]) 1 1 (-1).
Proof.
  assert (H : forall x y, (x < img_width white_2x1)%nat -> (y < img_height white_2x1)%nat ->
                          within_tolerance white_2x1 x y).
  { simpl. intros x y Hx Hy.
    assert (y = 0%nat) as -> by lia.
    assert (x = 0%nat \/ x = 1%nat) as [-> | ->] by lia;
      unfold within_tolerance; simpl.
    - exists 255, 255, 255. repeat split; lia.
    - exists 250, 245, 240. repeat split; lia. }
  split; [exact H | exact (processImage_all_background white_2x1 H)].
Defined.

(** C7. On a bitmap with a pixel outside background tolerance, the box
    [(minX, minY, maxX, maxY)] found by the scan contains every pixel
    classified as foreground and each of its four sides holds one (it is
    the tightest such box); the returned crop has
    [width = maxX - minX + 1] and [height = maxY - minY + 1], which the
    floor at 1 leaves unchanged, both at least 1; the crop bitmap has these
    dimensions and [maxY] is returned in the coordinates of the input. *)
Theorem processImage_bounding_box (image : ImageData) :
  (exists x y, (x < img_width image)%nat /\ (y < img_height image)%nat /\
               ~ within_tolerance image x y) ->
  let s := scan_image image in
  let pc := processImage image in
  (forall x y, (x < img_width image)%nat -> (y < img_height image)%nat ->
               foreground_at image x y = true ->
               minX s <= Z.of_nat x <= maxX s /\ minY s <= Z.of_nat y <= maxY s) /\
  (exists x y, (x < img_width image)%nat /\ (y < img_height image)%nat /\
               foreground_at image x y = true /\ Z.of_nat x = minX s) /\
  (exists x y, (x < img_width image)%nat /\ (y < img_height image)%nat /\
               foreground_at image x y = true /\ Z.of_nat x = maxX s) /\
  (exists x y, (x < img_width image)%nat /\ (y < img_height image)%nat /\
               foreground_at image x y = true /\ Z.of_nat y = minY s) /\
  (exists x y, (x < img_width image)%nat /\ (y < img_height image)%nat /\
               foreground_at image x y = true /\ Z.of_nat y = maxY s) /\
  pc_width pc = maxX s - minX s + 1 /\
  pc_height pc = maxY s - minY s + 1 /\
  pc_width pc = Z.max 1 (maxX s - minX s + 1) /\
  pc_height pc = Z.max 1 (maxY s - minY s + 1) /\
  1 <= pc_width pc /\ 1 <= pc_height pc /\
  pc_maxY pc = maxY s /\
  Z.of_nat (img_width (pc_imageData pc)) = pc_width pc /\
  Z.of_nat (img_height (pc_imageData pc)) = pc_height pc.
Proof.
  intros (x0 & y0 & Hx0 & Hy0 & Hfg0) s pc.
  assert (Hfg : foreground_at image x0 y0 = true).
  { destruct (foreground_at image x0 y0) eqn:E; [reflexivity|].
    apply foreground_at_false in E. contradiction. }
  destruct (scan_image_inv image) as [_ Hcov Ht _]. fold s in Hcov, Ht.
  pose proof (Hcov x0 y0 (conj Hx0 Hy0) Hfg) as Hbox.
  destruct Ht as [(? & ? & ? & ?) | (H1 & H2 & H3 & H4)]; [lia|].
  assert (Hpc : pc = mkProcessedCharacter ""
            (getImageData (img_width image) (img_height image) (sdata s)
               (Z.to_nat (minX s)) (Z.to_nat (minY s))
               (Z.to_nat (Z.max 1 (maxX s - minX s + 1)))
               (Z.to_nat (Z.max 1 (maxY s - minY s + 1))))
            (Z.max 1 (maxX s - minX s + 1)) (Z.max 1 (maxY s - minY s + 1)) (maxY s)).
  { unfold pc, processImage. fold s.
    destruct (Z.eqb_spec (maxX s) (-1)); [lia|].
    destruct (Z.eqb_spec (maxY s) (-1)); [lia|]. reflexivity. }
  rewrite Hpc. simpl.
  split; [intros x y Hx Hy; apply Hcov; auto|].
  repeat split;
    try (match goal with
         | H : exists x y, _ /\ _ /\ _ = ?v |- exists x y, _ /\ _ /\ _ /\ _ = ?v =>
             destruct H as (x & y & [? ?] & ? & ?); exists x, y; auto
         end);
    lia.
Qed.

Lemma processImage_bounding_box_witness :
  (exists x y, (x < img_width dot_3x2)%nat /\ (y < img_height dot_3x2)%nat /\
               ~ within_tolerance dot_3x2 x y) /\
  pc_width (processImage dot_3x2) = 2 /\
  pc_height (processImage dot_3x2) = 2 /\
  pc_maxY (processImage dot_3x2) = 1.
Proof.
  assert (H : exists x y, (x < img_width dot_3x2)%nat /\ (y < img_height dot_3x2)%nat /\
                          ~ within_tolerance dot_3x2 x y).
  { exists 1%nat, 0%nat. simpl. repeat split; try lia.
    intros Hw. apply foreground_at_false in Hw. vm_compute in Hw. discriminate. }
  split; [exact H|].
  pose proof (processImage_bounding_box dot_3x2 H) as
    (_ & _ & _ & _ & _ & Hw & Hh & _ & _ & _ & _ & Hm & _).
  split; [|split].
  - rewrite Hw. reflexivity.
  - rewrite Hh. reflexivity.
  - rewrite Hm. reflexivity.
Defined.

(** The [maxY] of a result is the sentinel or a row of the input. *)
Lemma processImage_maxY_range (image : ImageData) :
  pc_maxY (processImage image) = -1 \/
  0 <= pc_maxY (processImage image) < Z.of_nat (img_height image).
Proof.
  destruct (scan_image_inv image) as [_ _ Ht _]. unfold processImage.
  destruct Ht as [(_ & _ & HX & _) | (_ & _ & _ & (x & y & [_ Hy] & _ & HmaxY))].
  - rewrite HX. left. reflexivity.
  - destruct ((maxX (scan_image image) =? -1) || (maxY (scan_image image) =? -1));
      simpl; [left; reflexivity | right; lia].
Qed.

(** The height passed to the tracer in stage 2 is the height of the bitmap
    it is passed with. *)
Lemma processImage_height (image : ImageData) :
  Z.of_nat (img_height (pc_imageData (processImage image))) = pc_height (processImage image).
Proof.
  unfold processImage.
  destruct ((maxX (scan_image image) =? -1) || (maxY (scan_image image) =? -1)); simpl.
  - reflexivity.
  - lia.
Qed.

(** ** Outline Tracer *)

(** The inner loop stops, at the end of the run it was started in. *)
Lemma run_end_spec imageData y fuel x :
  (img_width imageData <= x + fuel)%nat ->
  exists e,
    run_end fuel imageData y x = Some e /\
    (x <= e)%nat /\
    (forall x', (x <= x')%nat -> (x' < e)%nat ->
                (x' < img_width imageData)%nat /\ opaque_at imageData y x' = true) /\
    ((e < img_width imageData)%nat -> opaque_at imageData y e = false).
Proof.
  revert x. induction fuel as [|fuel IH]; intros x Hfuel; simpl.
  - destruct (Nat.ltb_spec x (img_width imageData)); [lia|]. simpl.
    exists x. repeat split; try lia.
  - destruct (Nat.ltb_spec x (img_width imageData)) as [Hlt|Hge]; simpl.
    + destruct (opaque_at imageData y x) eqn:Hop.
      * destruct (IH (S x)) as (e & He & Hle & Hall & Hstop); [lia|].
        exists e. split; [exact He|]. split; [lia|]. split; [|exact Hstop].
        intros x' H1 H2. destruct (Nat.eq_dec x' x) as [->|]; [auto|].
        apply Hall; lia.
      * exists x. repeat split; try lia. intros _. exact Hop.
    + exists x. repeat split; try lia.
Qed.

(** One row, scanned from column [x] with enough fuel: the rectangles
    emitted are those of the maximal runs that start at or after [x], once
    each, and the columns they span are the opaque ones. *)
Lemma trace_row_spec imageData H y fuel x :
  (img_width imageData <= x + fuel)%nat ->
  run_boundary imageData y x ->
  exists runs : list (nat * nat * nat),
    trace_row fuel imageData H y x = Some (flat_map (spec_rectangle H) runs) /\
    (forall r x0 x1, (r, x0, x1) ∈ runs <->
                     r = y /\ (x <= x0)%nat /\ row_run imageData y x0 x1) /\
    NoDup runs /\
    (forall px, (exists r x0 x1, (r, x0, x1) ∈ runs /\ (x0 <= px)%nat /\ (px <= x1)%nat) <->
                (x <= px)%nat /\ (px < img_width imageData)%nat /\
                opaque_at imageData y px = true).
Proof.
  revert x. induction fuel as [|fuel IH]; intros x Hfuel Hb.
  - (* the loop condition fails *)
    simpl. destruct (Nat.ltb_spec x (img_width imageData)); [lia|].
    exists []. split; [reflexivity|]. split; [|split; [constructor|]].
    + intros r x0 x1. split; [intros Hin; inversion Hin|].
      intros (_ & ? & ? & ? & _). lia.
    + intros px. split; [intros (r & x0 & x1 & Hin & _); inversion Hin | lia].
  - simpl. destruct (Nat.ltb_spec x (img_width imageData)) as [Hlt|Hge].
    2:{ exists []. split; [reflexivity|]. split; [|split; [constructor|]].
        + intros r x0 x1. split; [intros Hin; inversion Hin|].
          intros (_ & ? & ? & ? & _). lia.
        + intros px. split; [intros (r & x0 & x1 & Hin & _); inversion Hin | lia]. }
    destruct (opaque_at imageData y x) eqn:Hop.
    + (* a run starts at [x] *)
      destruct (run_end_spec imageData y (img_width imageData) x)
        as (e & He & Hle & Hall & Hstop); [lia|].
      rewrite He.
      assert (Hxe : (x < e)%nat).
      { destruct (Nat.eq_dec x e) as [<-|]; [|lia].
        rewrite Hstop in Hop by exact Hlt. discriminate. }
      assert (Hew : (e <= img_width imageData)%nat).
      { destruct (Hall (e - 1)%nat); lia. }
      assert (Hrun : row_run imageData y x (e - 1)).
      { split; [lia|]. split; [lia|]. split; [intros x' ? ?; apply Hall; lia|].
        split.
        - destruct Hb as [?|[?|[?|?]]]; auto; [lia | congruence].
        - destruct (Nat.eq_dec e (img_width imageData)); [left; lia | right].
          replace (S (e - 1)) with e by lia. apply Hstop. lia. }
      destruct (IH e) as (runs & Hruns & Hin & Hnd & Hcov); [lia| |].
      { destruct (Nat.eq_dec e (img_width imageData)).
        - right; right; left. lia.
        - right; right; right. apply Hstop. lia. }
      rewrite Hruns.
      exists ((y, x, (e - 1)%nat) :: runs).
      split.
      { simpl. do 6 f_equal; try lia.
        all: replace (Z.of_nat (e - 1)) with (Z.of_nat e - 1) by lia; reflexivity. }
      split; [|split].
      * intros r x0 x1. rewrite elem_of_cons, Hin. split.
        -- intros [Heq | (-> & Hx0 & Hr)].
           ++ inversion Heq; subst. split; [reflexivity|]. split; [lia | exact Hrun].
           ++ split; [reflexivity|]. split; [lia | exact Hr].
        -- intros (-> & Hx0 & Hr).
           destruct Hr as (H1 & H2 & H3 & H4 & H5).
           destruct (Nat.lt_ge_cases x0 e) as [Hx0e | Hx0e]; [left | right].
           ++ (* a maximal run that starts inside [x .. e - 1] is that run *)
              assert (x0 = x) as ->.
              { destruct (Nat.eq_dec x0 x); [assumption|].
                destruct H4 as [?|H4]; [lia|].
                destruct (Hall (x0 - 1)%nat); [lia|lia|congruence]. }
              assert (x1 = (e - 1)%nat) as ->; [|reflexivity].
              destruct (Nat.lt_trichotomy x1 (e - 1)) as [?|[?|?]]; [|assumption|].
              ** destruct H5 as [?|H5]; [lia|].
                 destruct (Hall (S x1)); [lia|lia|congruence].
              ** rewrite H3 in Hstop by lia.
                 assert (e < img_width imageData)%nat by lia.
                 specialize (Hstop ltac:(assumption)). discriminate.
           ++ split; [reflexivity|]. split; [exact Hx0e|].
              split; [exact H1|]. split; [exact H2|]. split; [exact H3|].
              split; [exact H4 | exact H5].
      * constructor; [|exact Hnd].
        rewrite Hin. intros (_ & ? & _). lia.
      * intros px. split.
        -- intros (r & x0 & x1 & Hel & Hp1 & Hp2).
           apply elem_of_cons in Hel as [Heq | Hel].
           ++ inversion Heq; subst. destruct (Hall px); [lia|lia|]. repeat split; auto.
           ++ destruct (proj1 (Hcov px)) as (? & ? & ?); [eauto 10|].
              repeat split; auto; lia.
        -- intros (Hp1 & Hp2 & Hp3).
           destruct (Nat.lt_ge_cases px e) as [Hpe | Hpe].
           ++ exists y, x, (e - 1)%nat. split; [left|lia].
           ++ destruct (proj2 (Hcov px)) as (r & x0 & x1 & Hel & ? & ?); [auto|].
              exists r, x0, x1. split; [right; exact Hel | lia].
    + (* a transparent pixel: move on *)
      destruct (IH (S x)) as (runs & Hruns & Hin & Hnd & Hcov); [lia| |].
      { right; left. replace (S x - 1)%nat with x by lia. exact Hop. }
      exists runs. split; [exact Hruns|]. split; [|split; [exact Hnd|]].
      * intros r x0 x1. rewrite Hin. split.
        -- intros (-> & ? & Hr). split; [reflexivity|]. split; [lia | exact Hr].
        -- intros (-> & ? & Hr). split; [reflexivity|]. split; [|exact Hr].
           destruct (Nat.eq_dec x0 x) as [->|]; [|lia].
           destruct Hr as (? & ? & H3 & _). rewrite H3 in Hop by lia. discriminate.
      * intros px. rewrite Hcov. split.
        -- intros (? & ? & ?). repeat split; auto; lia.
        -- intros (? & ? & Hp). split; [|auto].
           destruct (Nat.eq_dec px x) as [->|]; [congruence | lia].
Qed.

(** All rows of a list, each scanned from column 0. *)
Lemma trace_rows_spec imageData H rows :
  NoDup rows ->
  exists runs : list (nat * nat * nat),
    trace_rows imageData H rows = Some (flat_map (spec_rectangle H) runs) /\
    (forall r x0 x1, (r, x0, x1) ∈ runs <-> r ∈ rows /\ row_run imageData r x0 x1) /\
    NoDup runs /\
    (forall px py,
        (exists x0 x1, (py, x0, x1) ∈ runs /\ (x0 <= px)%nat /\ (px <= x1)%nat) <->
        py ∈ rows /\ (px < img_width imageData)%nat /\ opaque_at imageData py px = true).
Proof.
  induction rows as [|y rows IH]; intros Hnd.
  - exists []. split; [reflexivity|]. split; [|split; [constructor|]].
    + intros r x0 x1. split; [intros Hin | intros [Hin _]]; inversion Hin.
    + intros px py. split; [intros (? & ? & Hin & _) | intros [Hin _]]; inversion Hin.
  - apply NoDup_cons in Hnd as [Hy Hnd].
    destruct (IH Hnd) as (runs & Hruns & Hin & Hnd' & Hcov).
    destruct (trace_row_spec imageData H y (img_width imageData) 0)
      as (row & Hrow & Hin0 & Hnd0 & Hcov0); [lia | left; reflexivity |].
    exists (row ++ runs). simpl. rewrite Hrow, Hruns, flat_map_app.
    split; [reflexivity|]. split; [|split].
    + intros r x0 x1. rewrite elem_of_app, elem_of_cons, Hin0, Hin. split.
      * intros [(-> & _ & Hr) | (Hr & Hrr)]; auto.
      * intros [[-> | Hr] Hrr]; [left | right]; auto.
        split; [reflexivity|]. split; [lia | exact Hrr].
    + apply NoDup_app. split; [exact Hnd0|]. split; [|exact Hnd'].
      intros [[r x0] x1] H0 H1. apply Hin0 in H0 as (-> & _). apply Hin in H1 as [H1 _].
      contradiction.
    + intros px py. split.
      * intros (x0 & x1 & Hel & Hp1 & Hp2). apply elem_of_app in Hel as [Hel | Hel].
        -- pose proof (proj1 (Hin0 _ _ _) Hel) as (-> & _).
           destruct (proj1 (Hcov0 px)) as (_ & ? & ?); [eauto 10|].
           split; [left | auto].
        -- destruct (proj1 (Hcov px py)) as (? & ? & ?); [eauto 10|].
           split; [right; assumption | auto].
      * intros (Hel & Hpw & Hop). apply elem_of_cons in Hel as [-> | Hel].
        -- destruct (proj2 (Hcov0 px)) as (r & x0 & x1 & Hel & ? & ?);
             [split; [lia | auto]|].
           pose proof (proj1 (Hin0 _ _ _) Hel) as (-> & _).
           exists x0, x1. rewrite elem_of_app. auto.
        -- destruct (proj2 (Hcov px py)) as (x0 & x1 & Hel' & ? & ?); [auto|].
           exists x0, x1. rewrite elem_of_app. auto.
Qed.

(** The tracer returns (its loops never run out of fuel), and what it
    returns is described by the maximal runs of the bitmap. *)
Lemma imageDataToOpentypePath_runs imageData H :
  exists runs : list (nat * nat * nat),
    imageDataToOpentypePath imageData H = Some (flat_map (spec_rectangle H) runs) /\
    (forall run, run ∈ runs <-> maximal_run imageData run) /\
    NoDup runs /\
    (forall px py,
        (exists x0 x1, (py, x0, x1) ∈ runs /\ (x0 <= px)%nat /\ (px <= x1)%nat) <->
        (py < img_height imageData)%nat /\ (px < img_width imageData)%nat /\
        opaque_at imageData py px = true).
Proof.
  destruct (trace_rows_spec imageData H (seq 0 (img_height imageData)))
    as (runs & Hruns & Hin & Hnd & Hcov); [apply NoDup_seq|].
  exists runs. split; [exact Hruns|]. split; [|split; [exact Hnd|]].
  - intros [[r x0] x1]. rewrite Hin, elem_of_seq. simpl.
    split; intros [? ?]; split; auto; lia.
  - intros px py. rewrite Hcov, elem_of_seq.
    split; intros (? & ? & ?); repeat split; auto; lia.
Qed.

(** C5. The outline traced from a bitmap of height [H] is made of one
    closed rectangle for every maximal horizontal run of pixels with alpha
    above 128, each run once, and of nothing else; the run of columns
    [x0 .. x1] in row [r] gives the five commands
    move (x0, H-1-r), line (x1+1, H-1-r), line (x1+1, H-r), line (x0, H-r),
    close.  Every rectangle is one row high: none is merged across rows. *)
Theorem imageDataToOpentypePath_rectangles (imageData : ImageData) :
  let H := Z.of_nat (img_height imageData) in
  exists runs : list (nat * nat * nat),
    imageDataToOpentypePath imageData H = Some (flat_map (spec_rectangle H) runs) /\
    NoDup runs /\
    (forall run, run ∈ runs <-> maximal_run imageData run).
Proof.
  intros H.
  destruct (imageDataToOpentypePath_runs imageData H) as (runs & Hruns & Hin & Hnd & _).
  exists runs. auto.
Qed.

(** *** Rasterizing the traced outline *)

Lemma Qltb_true a b : Qltb a b = true <-> (a < b)%Q.
Proof.
  unfold Qltb. rewrite negb_true_iff. split.
  - intros Hf. destruct (Qlt_le_dec a b) as [|Hle]; [assumption|].
    apply Qle_bool_iff in Hle. congruence.
  - intros Hlt. destruct (Qle_bool b a) eqn:E; [|reflexivity].
    apply Qle_bool_iff in E. lra.
Qed.

Lemma Qltb_ext a b b' : (b == b')%Q -> Qltb a b = Qltb a b'.
Proof.
  intros Heq. apply eq_true_iff_eq. rewrite !Qltb_true, Heq. reflexivity.
Qed.

(** A pixel centre against an integer coordinate. *)
Lemma Qltb_centre (a b : Z) : Qltb (inject_Z a + (1 # 2)) (inject_Z b) = (a <? b).
Proof.
  apply eq_true_iff_eq. rewrite Qltb_true, Z.ltb_lt.
  unfold Qlt, Qplus, inject_Z. simpl. lia.
Qed.

Lemma crosses_horizontal p x1 x2 y : crosses p ((x1, y), (x2, y)) = false.
Proof.
  destruct p as [px py]. simpl.
  destruct (Qltb py y); reflexivity.
Qed.

Lemma crosses_vertical (px py xe y1 y2 : Z) :
  crosses ((inject_Z px + (1 # 2))%Q, (inject_Z py + (1 # 2))%Q)
          ((inject_Z xe, inject_Z y1), (inject_Z xe, inject_Z y2))
  = negb (Bool.eqb (py <? y1) (py <? y2)) && (px <? xe).
Proof.
  simpl. rewrite !Qltb_centre. f_equal.
  rewrite <- Qltb_centre. apply Qltb_ext.
  unfold Qdiv. ring.
Qed.

(** The centre of pixel [(px, py)] is inside the rectangle of a run
    exactly when the pixel is in the run. *)
Lemma inside_spec_rectangle H r x0 x1 px py cs :
  (x0 <= x1)%nat ->
  contours [] (spec_rectangle H (r, x0, x1)) = Some cs ->
  existsb (fun c => inside c (pixel_centre H px py)) cs = true <->
  py = r /\ (x0 <= px)%nat /\ (px <= x1)%nat.
Proof.
  intros Hle Hcs. simpl in Hcs. injection Hcs as <-.
  unfold pixel_centre, inside, edges. cbn [existsb foldr combine app].
  rewrite !crosses_horizontal, !crosses_vertical. rewrite orb_false_r.
  repeat match goal with |- context [?a <? ?b] => destruct (Z.ltb_spec a b) end;
    simpl; split; try discriminate; try lia; intros _; reflexivity.
Qed.

Lemma contours_spec_rectangle H run p cs :
  contours [] p = Some cs ->
  exists c, contours [] (spec_rectangle H run) = Some [c] /\
            contours [] (spec_rectangle H run ++ p) = Some (c :: cs).
Proof.
  intros Hp. destruct run as [[r x0] x1]. simpl. rewrite Hp. eauto.
Qed.

(** Rasterizing the rectangles of a list of well-formed runs gives the
    pixels of these runs. *)
Lemma rasterize_rectangles H runs px py :
  (forall r x0 x1, (r, x0, x1) ∈ runs -> (x0 <= x1)%nat) ->
  rasterize (flat_map (spec_rectangle H) runs) H px py = true <->
  exists x0 x1, (py, x0, x1) ∈ runs /\ (x0 <= px)%nat /\ (px <= x1)%nat.
Proof.
  unfold rasterize. intros Hwf.
  assert (Hgen : exists cs,
             contours [] (flat_map (spec_rectangle H) runs) = Some cs /\
             (existsb (fun c => inside c (pixel_centre H px py)) cs = true <->
              exists x0 x1, (py, x0, x1) ∈ runs /\ (x0 <= px)%nat /\ (px <= x1)%nat)).
  { induction runs as [|[[r x0] x1] runs IH].
    - exists []. split; [reflexivity|]. simpl. split; [discriminate|].
      intros (? & ? & Hin & _). inversion Hin.
    - destruct IH as (cs & Hcs & IH).
      { intros r' x0' x1' Hin. eapply Hwf. right. exact Hin. }
      destruct (contours_spec_rectangle H (r, x0, x1) _ _ Hcs) as (c & Hc & Hcc).
      exists (c :: cs). split; [exact Hcc|].
      pose proof (inside_spec_rectangle H r x0 x1 px py [c]
                    (Hwf r x0 x1 ltac:(left)) Hc) as Hone.
      simpl in Hone. rewrite orb_false_r in Hone.
      simpl. rewrite orb_true_iff, Hone, IH. split.
      + intros [(-> & ? & ?) | (a & b & Hin & ? & ?)].
        * exists x0, x1. split; [left | auto].
        * exists a, b. split; [right; exact Hin | auto].
      + intros (a & b & Hin & ? & ?). apply elem_of_cons in Hin as [Heq | Hin].
        * inversion Heq; subst. left. auto.
        * right. eauto. }
  destruct Hgen as (cs & -> & Hgen). exact Hgen.
Qed.

(** C4. Re-rasterizing the outline traced from a bitmap, with one font
    unit per pixel and the bitmap's height as [charPixelHeight], gives the
    bitmap's mask back: the tracer returns an outline, and the centre of
    pixel [(x, y)] lies inside one of its rectangles exactly when the pixel
    is in the bitmap and its alpha exceeds 128. *)
Theorem outline_roundtrip (imageData : ImageData) :
  let H := Z.of_nat (img_height imageData) in
  exists path,
    imageDataToOpentypePath imageData H = Some path /\
    forall x y,
      rasterize path H x y = true <->
      (x < img_width imageData)%nat /\ (y < img_height imageData)%nat /\
      js_gt (alpha_at imageData y x) 128 = true.
Proof.
  intros H.
  destruct (imageDataToOpentypePath_runs imageData H) as (runs & Hruns & Hin & _ & Hcov).
  exists (flat_map (spec_rectangle H) runs). split; [exact Hruns|].
  intros x y. rewrite rasterize_rectangles.
  - rewrite Hcov. fold (opaque_at imageData y x). tauto.
  - intros r x0 x1 Hel. apply Hin in Hel as (_ & ? & _). assumption.
Qed.

(** ** Baseline Calibrator *)

(** *** The frequency table as an object *)

Lemma obj_get_set o k v k2 :
  obj_get (obj_set o k v) k2 = if k2 =? k then Some v else obj_get o k2.
Proof.
  induction o as [|[k' v'] o IH]; simpl.
  - reflexivity.
  - destruct (Z.eqb_spec k k') as [->|Hne]; simpl.
    + destruct (Z.eqb_spec k2 k'); reflexivity.
    + destruct (is_array_index k && (negb (is_array_index k') || (k <? k'))); simpl.
      * destruct (Z.eqb_spec k2 k); reflexivity.
      * rewrite IH. destruct (Z.eqb_spec k2 k'), (Z.eqb_spec k2 k); congruence.
Qed.

Lemma Object_keys_set o k v k2 :
  k2 ∈ Object_keys (obj_set o k v) <-> k2 = k \/ k2 ∈ Object_keys o.
Proof.
  unfold Object_keys. induction o as [|[k' v'] o IH]; simpl.
  - rewrite list_elem_of_singleton. split; [auto | intros [?|Hin]; [auto | inversion Hin]].
  - destruct (Z.eqb_spec k k') as [->|Hne]; simpl.
    + rewrite !elem_of_cons. tauto.
    + destruct (is_array_index k && (negb (is_array_index k') || (k <? k'))); simpl.
      * rewrite !elem_of_cons. tauto.
      * rewrite !elem_of_cons, IH. tauto.
Qed.

Lemma Object_keys_get o k : k ∈ Object_keys o <-> is_Some (obj_get o k).
Proof.
  unfold Object_keys. induction o as [|[k' v'] o IH]; simpl.
  - split; [intros Hin; inversion Hin | intros [? ?]; discriminate].
  - rewrite elem_of_cons, IH. destruct (Z.eqb_spec k k'); split; eauto.
    + intros [?|?]; [contradiction | assumption].
Qed.

(** Array-index keys are kept in ascending order. *)
Lemma obj_set_sorted o k v :
  is_array_index k = true ->
  Forall (fun k' => is_array_index k' = true) (Object_keys o) ->
  StronglySorted Z.lt (Object_keys o) ->
  StronglySorted Z.lt (Object_keys (obj_set o k v)).
Proof.
  intros Hk. induction o as [|[k' v'] o IH]; simpl; intros Hidx Hs.
  - repeat constructor.
  - apply Forall_cons in Hidx as [Hk' Hidx].
    apply StronglySorted_inv in Hs as [Hs Hlt].
    destruct (Z.eqb_spec k k') as [->|Hne]; simpl.
    + constructor; assumption.
    + rewrite Hk, Hk'. simpl. destruct (Z.ltb_spec k k') as [Hlt'|Hge]; simpl.
      * constructor; [constructor; assumption|].
        constructor; [assumption|].
        eapply Forall_impl; [exact Hlt|]. simpl. intros; lia.
      * constructor; [apply IH; assumption|].
        apply Forall_forall. intros k2 Hin.
        apply Object_keys_set in Hin as [->|Hin]; [lia|].
        rewrite Forall_forall in Hlt. apply Hlt, Hin.
Qed.

(** After the first [reduce], every value met has its number of
    occurrences as count, and no other key exists. *)
Lemma counts_get (l : list Z) k :
  obj_get (foldl count_step [] l) k
  = if bool_decide (k ∈ l) then Some (count_occ Z.eq_dec l k) else None.
Proof.
  induction l as [|a l IH] using rev_ind.
  - reflexivity.
  - rewrite foldl_app. simpl. unfold count_step at 1. rewrite obj_get_set.
    rewrite count_occ_app. simpl.
    destruct (Z.eqb_spec k a) as [->|Hne].
    + rewrite bool_decide_eq_true_2 by (apply elem_of_app; right; left).
      rewrite IH. destruct (Z.eq_dec a a); [|congruence].
      case_bool_decide as Hin; simpl.
      * reflexivity.
      * f_equal. rewrite (proj1 (count_occ_not_In Z.eq_dec l a)); [reflexivity|].
        rewrite <- list_elem_of_In. exact Hin.
    + rewrite IH. destruct (Z.eq_dec a k); [congruence|]. rewrite Nat.add_0_r.
      repeat case_bool_decide; try reflexivity; exfalso.
      * match goal with H : _ ∉ _ ++ _ |- _ => apply H, elem_of_app end. left. assumption.
      * match goal with H : _ ∈ _ ++ _ |- _ => apply elem_of_app in H as [?|Hin] end;
          [contradiction|].
        apply list_elem_of_singleton in Hin. congruence.
Qed.

Lemma counts_keys (l : list Z) k : k ∈ Object_keys (foldl count_step [] l) <-> k ∈ l.
Proof.
  rewrite Object_keys_get, counts_get. case_bool_decide; split; eauto.
  - intros [? ?]. discriminate.
  - contradiction.
Qed.

Lemma counts_sorted (l : list Z) :
  Forall row_index l ->
  Forall (fun k => is_array_index k = true) (Object_keys (foldl count_step [] l)) /\
  StronglySorted Z.lt (Object_keys (foldl count_step [] l)).
Proof.
  intros Hl.
  assert (Hidx : Forall (fun k => is_array_index k = true)
                        (Object_keys (foldl count_step [] l))).
  { apply Forall_forall. intros k Hk. apply (proj1 (counts_keys _ _)) in Hk.
    rewrite Forall_forall in Hl. specialize (Hl k Hk).
    unfold is_array_index, row_index in *. apply andb_true_iff. lia. }
  split; [exact Hidx|]. clear Hidx.
  induction l as [|a l IH] using rev_ind.
  - constructor.
  - apply Forall_app in Hl as [Hl Ha]. apply Forall_cons in Ha as [Ha _].
    rewrite foldl_app. simpl. unfold count_step at 1.
    apply obj_set_sorted.
    + unfold is_array_index, row_index in *. apply andb_true_iff. lia.
    + apply Forall_forall. intros k Hk. apply (proj1 (counts_keys _ _)) in Hk.
      rewrite Forall_forall in Hl. specialize (Hl k Hk).
      unfold is_array_index, row_index in *. apply andb_true_iff. lia.
    + apply IH, Hl.
Qed.

(** *** The second [reduce] *)

(** Folding [pick_key] over keys met in ascending order keeps the largest
    key among those of the highest count. *)
Lemma foldl_pick_key o (c : Z -> nat) ks :
  forall a seen,
    a ∈ seen ->
    (forall k, k ∈ seen -> (c k <= c a)%nat /\ (c k = c a -> k <= a)) ->
    (forall k k', k ∈ seen -> k' ∈ ks -> k < k') ->
    StronglySorted Z.lt ks ->
    (forall k, k ∈ seen ++ ks -> obj_get o k = Some (c k)) ->
    foldl (pick_key o) a ks ∈ seen ++ ks /\
    forall k, k ∈ seen ++ ks ->
              (c k <= c (foldl (pick_key o) a ks))%nat /\
              (c k = c (foldl (pick_key o) a ks) -> k <= foldl (pick_key o) a ks).
Proof.
  induction ks as [|b ks IH]; intros a seen Ha Hbest Hord Hs Hget; simpl.
  - rewrite app_nil_r. auto.
  - apply StronglySorted_inv in Hs as [Hs Hb]. rewrite Forall_forall in Hb.
    replace (seen ++ b :: ks) with ((seen ++ [b]) ++ ks) in *
      by (rewrite <- app_assoc; reflexivity).
    assert (Hpick : pick_key o a b = if (c b <? c a)%nat then a else b).
    { unfold pick_key. rewrite (Hget a), (Hget b); [reflexivity| |].
      - rewrite !elem_of_app. left; right; left.
      - rewrite !elem_of_app. left; left; exact Ha. }
    assert (Hab : a < b) by (apply Hord; [exact Ha | left]).
    apply IH; [| | |exact Hs|exact Hget].
    + rewrite Hpick, elem_of_app.
      destruct (c b <? c a)%nat; [left; exact Ha | right; left].
    + intros k Hk. rewrite Hpick.
      apply elem_of_app in Hk as [Hk | Hk].
      * destruct (Hbest k Hk) as [H1 H2].
        assert (k < b) by (apply Hord; [exact Hk | left]).
        destruct (Nat.ltb_spec (c b) (c a)); [auto | split; lia].
      * apply list_elem_of_singleton in Hk as ->.
        destruct (Nat.ltb_spec (c b) (c a)); split; lia.
    + intros k k' Hk Hk'. apply elem_of_app in Hk as [Hk | Hk].
      * apply Hord; [exact Hk | right; exact Hk'].
      * apply list_elem_of_singleton in Hk as ->. apply Hb, Hk'.
Qed.

(** The baseline of a non-empty list of row indices: a value of the
    list, of the highest frequency, and the largest such value. *)
Lemma determine_baseline_spec (l : list Z) :
  l <> [] -> Forall row_index l ->
  exists b,
    determine_baseline l = Some (inject_Z b) /\ b ∈ l /\
    forall v, (count_occ Z.eq_dec l v <= count_occ Z.eq_dec l b)%nat /\
              (count_occ Z.eq_dec l v = count_occ Z.eq_dec l b -> v <= b).
Proof.
  intros Hne Hidx.
  destruct (counts_sorted l Hidx) as [_ Hs].
  pose proof (counts_keys l) as Hkeys.
  unfold determine_baseline.
  destruct l as [|v0 l0] eqn:El; [congruence|]. rewrite <- El in *.
  assert (Hlen : (0 <? List.length l)%nat = true) by (subst l; reflexivity).
  rewrite Hlen. clear Hlen.
  destruct (Object_keys (foldl count_step [] l)) as [|a ks] eqn:Ek.
  { exfalso. assert (Hin : v0 ∈ l) by (subst l; left).
    apply Hkeys in Hin. inversion Hin. }
  simpl.
  apply StronglySorted_inv in Hs as [Hs Ha]. rewrite Forall_forall in Ha.
  destruct (foldl_pick_key (foldl count_step [] l) (count_occ Z.eq_dec l) ks a [a])
    as [Hin Hbest].
  - left.
  - intros k Hk. apply list_elem_of_singleton in Hk as ->. split; [lia | intros; lia].
  - intros k k' Hk Hk'. apply list_elem_of_singleton in Hk as ->.
    apply Ha, Hk'.
  - exact Hs.
  - intros k Hk. simpl in Hk. apply Hkeys in Hk.
    rewrite counts_get, bool_decide_eq_true_2 by exact Hk. reflexivity.
  - simpl in Hin, Hbest.
    exists (foldl (pick_key (foldl count_step [] l)) a ks).
    split; [reflexivity|]. apply Hkeys in Hin. split; [exact Hin|].
    intros v. destruct (decide (v ∈ l)) as [Hv | Hv].
    + apply Hbest, Hkeys, Hv.
    + rewrite list_elem_of_In in Hv, Hin.
      apply (count_occ_not_In Z.eq_dec) in Hv.
      apply (count_occ_In Z.eq_dec) in Hin. split; lia.
Qed.

(** C9. On a non-empty list of collected row indices the baseline is a
    value of the list whose number of occurrences is the highest (the
    statistical mode), and it is the same for every permutation of the
    list. *)
Theorem baseline_mode_permutation (maxYValues : list Z) :
  maxYValues <> [] -> Forall row_index maxYValues ->
  exists b,
    determine_baseline maxYValues = Some (inject_Z b) /\
    b ∈ maxYValues /\
    (forall v, (count_occ Z.eq_dec maxYValues v <= count_occ Z.eq_dec maxYValues b)%nat) /\
    (forall l', Permutation maxYValues l' ->
                determine_baseline l' = determine_baseline maxYValues).
Proof.
  intros Hne Hidx.
  destruct (determine_baseline_spec maxYValues Hne Hidx) as (b & Hb & Hin & Hbest).
  exists b. split; [exact Hb|]. split; [exact Hin|]. split; [intros v; apply Hbest|].
  intros l' Hperm.
  destruct (determine_baseline_spec l') as (b' & Hb' & Hin' & Hbest').
  - intros ->. apply Permutation_sym, Permutation_nil in Hperm. contradiction.
  - eapply Permutation_Forall; eassumption.
  - rewrite Hb, Hb'. do 2 f_equal.
    pose proof (proj1 (Permutation_count_occ Z.eq_dec maxYValues l') Hperm) as Hc.
    destruct (Hbest b') as [H1 H2]. destruct (Hbest' b) as [H3 H4].
    rewrite <- !Hc in H3, H4.
    assert (count_occ Z.eq_dec maxYValues b = count_occ Z.eq_dec maxYValues b') by lia.
    specialize (H2 ltac:(lia)). specialize (H4 ltac:(lia)). lia.
Qed.

Lemma baseline_mode_permutation_witness :
  exists b,
    determine_baseline maxY_sample = Some (inject_Z b) /\
    b ∈ maxY_sample /\
    (forall v, (count_occ Z.eq_dec maxY_sample v
                <= count_occ Z.eq_dec maxY_sample b)%nat) /\
    (forall l', Permutation maxY_sample l' ->
                determine_baseline l' = determine_baseline maxY_sample).
Proof.
  apply (baseline_mode_permutation maxY_sample).
  - discriminate.
  - repeat constructor; unfold row_index; simpl; lia.
Defined.

(** C10. When several values share the highest frequency, the baseline is
    the numerically largest of them: the keys of the frequency table are
    row indices, enumerated in ascending order, and the reduction keeps the
    later key unless the earlier count is strictly greater. *)
Theorem baseline_tie_largest (maxYValues : list Z) :
  maxYValues <> [] -> Forall row_index maxYValues ->
  exists b,
    determine_baseline maxYValues = Some (inject_Z b) /\
    (forall v, (count_occ Z.eq_dec maxYValues v <= count_occ Z.eq_dec maxYValues b)%nat) /\
    (forall v, count_occ Z.eq_dec maxYValues v = count_occ Z.eq_dec maxYValues b -> v <= b).
Proof.
  intros Hne Hidx.
  destruct (determine_baseline_spec maxYValues Hne Hidx) as (b & Hb & _ & Hbest).
  exists b. split; [exact Hb|]. split; intros v; apply Hbest.
Qed.

Lemma baseline_tie_largest_witness :
  exists b,
    determine_baseline maxY_tied = Some (inject_Z b) /\
    (forall v, (count_occ Z.eq_dec maxY_tied v
                <= count_occ Z.eq_dec maxY_tied b)%nat) /\
    (forall v, count_occ Z.eq_dec maxY_tied v
               = count_occ Z.eq_dec maxY_tied b -> v <= b).
Proof.
  apply (baseline_tie_largest maxY_tied).
  - discriminate.
  - repeat constructor; unfold row_index; simpl; lia.
Defined.

(** ** Glyph Transform Engine *)

Lemma Qeq_bool_false a b : ~ (a == b)%Q -> Qeq_bool a b = false.
Proof.
  intros Hne. destruct (Qeq_bool a b) eqn:E; [|reflexivity].
  apply Qeq_bool_iff in E. contradiction.
Qed.

(** The two orders agree on a point only when the offset is zero. *)
Lemma transform_orders_on_a_coordinate (v s d : Q) :
  ~ (s == 1)%Q ->
  (0 + (v - 0) * s + d == 0 + (v + d - 0) * s)%Q -> (d == 0)%Q.
Proof.
  intros Hs Heq.
  assert (Hprod : (d * (1 - s) == 0)%Q) by lra.
  apply Qmult_integral in Hprod as [Hd | Hs']; [exact Hd|].
  exfalso. apply Hs. lra.
Qed.

Lemma transform_orders_on_a_command (c : PathCommand) (s dx dy : Q) :
  has_point c = true -> ~ (s == 1)%Q ->
  command_eq (translate_command dx dy (scale_command s 0 0 c))
             (scale_command s 0 0 (translate_command dx dy c)) ->
  (dx == 0 /\ dy == 0)%Q.
Proof.
  intros Hp Hs Heq.
  destruct c; simpl in Hp, Heq; try discriminate;
    repeat match goal with H : _ /\ _ |- _ => destruct H end;
    split; eapply transform_orders_on_a_coordinate; eassumption.
Qed.

(** An outline without points is left as it is by both transforms,
    whatever the scale and the offset: [Z] commands carry no coordinates. *)
Lemma transforms_without_points (path : Path) (s ox oy dx dy : Q) :
  existsb has_point path = false ->
  scalePath path s ox oy = path /\ translatePath path dx dy = path.
Proof.
  intros Hnone.
  assert (Hmap : forall f : PathCommand -> PathCommand,
             f CmdZ = CmdZ -> map f path = path).
  { intros f Hf. induction path as [|c path IH]; [reflexivity|].
    simpl in Hnone. apply orb_false_iff in Hnone as [Hc Hrest].
    destruct c; simpl in Hc; try discriminate.
    simpl. rewrite Hf, (IH Hrest). reflexivity. }
  unfold scalePath, translatePath. split.
  - destruct (Qeq_bool s 1); [reflexivity | apply Hmap; reflexivity].
  - destruct (Qeq_bool dx 0 && Qeq_bool dy 0); [reflexivity | apply Hmap; reflexivity].
Qed.

(** C8, as the code has it.  On an outline that has at least one point,
    with a scale other than 1 and an offset that is not (0, 0), scaling
    about (0, 0) and then translating gives a different outline from
    translating and then scaling.  On an outline without points both
    orders return the outline unchanged, whatever the scale and the
    offset. *)
Theorem transform_order_matters (path : Path) (scale xOffset yOffset : Q) :
  (existsb has_point path = true ->
   ~ (scale == 1)%Q ->
   ~ (xOffset == 0 /\ yOffset == 0)%Q ->
   ~ path_eq (scale_then_translate path scale xOffset yOffset)
             (translate_then_scale path scale xOffset yOffset)) /\
  (existsb has_point path = false ->
   scale_then_translate path scale xOffset yOffset = path /\
   translate_then_scale path scale xOffset yOffset = path).
Proof.
  split.
  - intros Hpt Hs Hoff Heq.
    unfold scale_then_translate, translate_then_scale, scalePath, translatePath, clonePath in Heq.
    rewrite (Qeq_bool_false scale 1 Hs) in Heq.
    assert (Hz : Qeq_bool xOffset 0 && Qeq_bool yOffset 0 = false).
    { destruct (Qeq_bool xOffset 0) eqn:Ex, (Qeq_bool yOffset 0) eqn:Ey; try reflexivity.
      exfalso. apply Hoff. split; apply Qeq_bool_iff; assumption. }
    rewrite Hz in Heq. rewrite map_id in Heq.
    apply existsb_exists in Hpt as (c & Hin & Hc).
    apply Hoff, (transform_orders_on_a_command c scale); [exact Hc | exact Hs |].
    unfold path_eq in Heq. clear Hz Hoff.
    induction path as [|c' path IH]; [inversion Hin|].
    simpl in Heq. apply Forall2_cons in Heq as [Hhd Htl].
    destruct Hin as [-> | Hin]; [exact Hhd | apply IH; assumption].
  - intros Hnone.
    unfold scale_then_translate, translate_then_scale, clonePath.
    rewrite map_id.
    destruct (transforms_without_points path scale 0 0 xOffset yOffset Hnone) as [Hsc Htr].
    rewrite Hsc, Htr, Hsc. split; reflexivity.
Qed.

Lemma transform_order_matters_witness :
  ~ path_eq (scale_then_translate pixel_outline 2 1 0)
            (translate_then_scale pixel_outline 2 1 0) /\
  (scale_then_translate blank_outline 2 3 4 = blank_outline /\
   translate_then_scale blank_outline 2 3 4 = blank_outline).
Proof.
  split.
  - apply (proj1 (transform_order_matters pixel_outline 2 1 0)).
    + reflexivity.
    + intros H. vm_compute in H. discriminate.
    + intros [H _]. vm_compute in H. discriminate.
  - apply (proj2 (transform_order_matters blank_outline 2 3 4)). reflexivity.
Defined.

(** C8 as stated fails on an outline without points: on the empty outline
    of a blank glyph both orders return the empty outline, whatever the
    scale and the offset. *)
Lemma transform_order_counterexample :
  ~ (forall (path : Path) (scale xOffset yOffset : Q),
        ~ (scale == 1)%Q -> ~ (xOffset == 0)%Q -> ~ (yOffset == 0)%Q ->
        ~ path_eq (scale_then_translate path scale xOffset yOffset)
                  (translate_then_scale path scale xOffset yOffset)).
Proof.
  intros Hclaim.
  apply (Hclaim blank_outline 2%Q 3%Q 4%Q).
  - intros H. vm_compute in H. discriminate.
  - intros H. vm_compute in H. discriminate.
  - intros H. vm_compute in H. discriminate.
  - vm_compute. constructor.
Qed.

(** The outline [assembleTtfFont] gives a glyph is its outline scaled
    about (0, 0) and then translated, in both branches of the test on the
    number of commands. *)
Lemma final_path_scale_then_translate (glyph : FontAssemblyGlyphData) :
  final_path glyph
  = scale_then_translate (fa_path glyph) (fa_scale glyph) (fa_xOffset glyph) (fa_yOffset glyph).
Proof.
  unfold final_path, scale_then_translate.
  destruct (fa_path glyph) as [|c p]; reflexivity.
Qed.

(** ** Font Assembler: advance widths *)


(** With a base advance width other than 0 the width written is
    [max(1, round(width * scale))]. *)
Lemma assemble_glyph_advance_nonzero upm glyph g :
  ~ (fa_width glyph == 0)%Q ->
  g ∈ assemble_glyph upm glyph ->
  ot_advanceWidth g = Z.max 1 (Math_round (fa_width glyph * fa_scale glyph)).
Proof.
  intros Hw. unfold assemble_glyph.
  destruct (String.eqb (fa_char glyph) " "); [intros Hin; inversion Hin|].
  destruct (charCodeAt0 (fa_char glyph)); [|intros Hin; inversion Hin].
  intros Hin. apply list_elem_of_singleton in Hin as ->. simpl.
  unfold width_or_default. rewrite (Qeq_bool_false _ _ Hw). reflexivity.
Qed.

(** The space glyph taken from an explicit entry has no fallback. *)
Lemma space_advance_width glyphsData fontFamily upm g :
  List.find (fun g => String.eqb (fa_char g) " ") glyphsData = Some g ->
  (ot_advanceWidth <$> glyphs (assembleTtfFont glyphsData fontFamily upm)) !! 1%nat
  = Some (Z.max 1 (Math_round (fa_width g * fa_scale g))).
Proof. intros Hf. simpl. rewrite Hf. reflexivity. Qed.

(** C3, at a glyph whose advance width was set to 0 in the editor (scale
    1, 256 units per em): the loop writes the advance width 128, the scaled
    fallback [round(unitsPerEm / 2)], where [max(1, round(0 * 1))] is 1.
    The comment in the code reserves the fallback for an undefined width,
    and the space glyph is computed without it. *)
Theorem advance_width_zero_base :
  fa_width zero_width_glyph = 0%Q /\
  (0 < fa_scale zero_width_glyph)%Q /\
  ot_advanceWidth <$> glyphs (assembleTtfFont [zero_width_glyph] "Font" UNITS_PER_EM)
  = [128; 85; 128] /\
  Z.max 1 (Math_round (fa_width zero_width_glyph * fa_scale zero_width_glyph)) = 1.
Proof.
  split; [reflexivity|]. split; [reflexivity|]. split; vm_compute; reflexivity.
Qed.

(** ** Baseline Calibrator: the fallback *)

(** The baseline is always an integer: 0 for an empty list, a key of the
    frequency table otherwise.  The [isNaN] branch is never taken. *)
Lemma determine_baseline_integer (l : list Z) :
  exists k : Z, determine_baseline l = Some (inject_Z k).
Proof.
  unfold determine_baseline. destruct l as [|v0 l0] eqn:El; [exists 0; reflexivity|].
  rewrite <- El.
  assert (Hlen : (0 <? List.length l)%nat = true) by (subst l; reflexivity).
  rewrite Hlen.
  destruct (Object_keys (foldl count_step [] l)) as [|a ks] eqn:Ek; simpl; eauto.
  exfalso. assert (Hin : v0 ∈ l) by (subst l; left).
  apply counts_keys in Hin. rewrite Ek in Hin. inversion Hin.
Qed.

(** C1, at the empty list of collected values: the baseline is 0, the
    initial value of [baselineY], and not [RENDER_SIZE * 0.8 = 204.8].
    The fallback assignment sits behind [isNaN(baselineY)], which is false
    for 0. *)
Theorem baseline_of_empty_list :
  determine_baseline [] = Some 0%Q /\
  (fallback_baseline == 2048 # 10)%Q /\
  ~ (0 == fallback_baseline)%Q.
Proof.
  split; [reflexivity|]. split; [reflexivity|].
  intros H. vm_compute in H. discriminate.
Qed.

(** ** The two stages of the batch *)

Lemma map_lookup {A B : Type} (f : A -> B) (l : list A) (i : nat) :
  map f l !! i = f <$> (l !! i).
Proof.
  revert i. induction l as [|a l IH]; intros [|i]; simpl; auto.
Qed.

Lemma update_glyph_lookup gl id f i :
  ids_ok gl ->
  update_glyph id f gl !! i = if decide (i = id) then f <$> (gl !! i) else gl !! i.
Proof.
  intros Hids. unfold update_glyph. rewrite map_lookup.
  destruct (gl !! i) as [g|] eqn:Hg; simpl.
  - rewrite (Hids _ _ Hg). destruct (Nat.eqb_spec i id), (decide (i = id)); congruence.
  - destruct (decide (i = id)); reflexivity.
Qed.

Lemma update_glyph_length gl id f : List.length (update_glyph id f gl) = List.length gl.
Proof. apply length_map. Qed.

Lemma update_glyph_ids_ok gl id f :
  (forall g, gd_id (f g) = gd_id g) -> ids_ok gl -> ids_ok (update_glyph id f gl).
Proof.
  intros Hf Hids i g. rewrite update_glyph_lookup by exact Hids.
  destruct (decide (i = id)) as [->|]; [|apply Hids].
  destruct (gl !! id) as [g0|] eqn:Hg; simpl; [|discriminate].
  intros [= <-]. rewrite Hf. apply (Hids _ _ Hg).
Qed.

(** Stage 2 on a list of results with distinct ids: it finishes, every
    result whose glyph is in the state has that glyph replaced by its
    [finalGlyphData], and the other glyphs are left as they were. *)
Lemma stage2_spec baselineY irs :
  forall gl,
    ids_ok gl -> NoDup (map ir_id irs) ->
    exists gl',
      stage2 baselineY gl irs = Some gl' /\
      List.length gl' = List.length gl /\
      (forall ir, ir ∈ irs -> (ir_id ir < List.length gl)%nat ->
                  exists path,
                    imageDataToOpentypePath (pc_imageData (ir_processedData ir))
                                            (pc_height (ir_processedData ir)) = Some path /\
                    gl' !! ir_id ir = Some (finalGlyphData baselineY ir path)) /\
      (forall i, i ∉ map ir_id irs -> gl' !! i = gl !! i).
Proof.
  unfold stage2. induction irs as [|ir irs IH]; intros gl Hids Hnd.
  - exists gl. simpl. split; [reflexivity|]. split; [reflexivity|].
    split; [intros ir Hin; inversion Hin | reflexivity].
  - simpl in Hnd. apply NoDup_cons in Hnd as [Hfresh Hnd].
    destruct (imageDataToOpentypePath_runs (pc_imageData (ir_processedData ir))
                (pc_height (ir_processedData ir))) as (runs & Hpath & _).
    simpl. rewrite Hpath.
    set (path := flat_map (spec_rectangle (pc_height (ir_processedData ir))) runs) in *.
    set (gl1 := update_glyph (ir_id ir) (fun _ => finalGlyphData baselineY ir path)
                  (update_glyph (ir_id ir) (with_status st_converting) gl)).
    assert (Hids0 : ids_ok (update_glyph (ir_id ir) (with_status st_converting) gl)).
    { apply update_glyph_ids_ok; [reflexivity | exact Hids]. }
    assert (Hids1 : ids_ok gl1).
    { intros i g. unfold gl1. rewrite update_glyph_lookup by exact Hids0.
      destruct (decide (i = ir_id ir)) as [->|]; [|apply Hids0].
      destruct (update_glyph _ _ gl !! ir_id ir); simpl; [|discriminate].
      intros [= <-]. reflexivity. }
    assert (Hlen1 : List.length gl1 = List.length gl).
    { unfold gl1. rewrite !update_glyph_length. reflexivity. }
    destruct (IH gl1 Hids1 Hnd) as (gl' & Hgl' & Hlen & Hdone & Hrest).
    exists gl'. split; [exact Hgl'|]. split; [lia|]. split.
    + intros ir' Hin Hlt. apply elem_of_cons in Hin as [-> | Hin].
      * exists path. split; [exact Hpath|].
        rewrite Hrest by exact Hfresh. unfold gl1.
        rewrite update_glyph_lookup by exact Hids0.
        rewrite update_glyph_lookup by exact Hids.
        destruct (decide (ir_id ir = ir_id ir)); [|congruence].
        destruct (lookup_lt_is_Some_2 gl (ir_id ir) Hlt) as [g ->]. reflexivity.
      * apply Hdone; [exact Hin | lia].
    + intros i Hi. rewrite Hrest.
      * unfold gl1. rewrite update_glyph_lookup by exact Hids0.
        rewrite update_glyph_lookup by exact Hids.
        destruct (decide (i = ir_id ir)) as [->|]; [|reflexivity].
        exfalso. apply Hi. simpl. left.
      * intros Hin. apply Hi. simpl. right. exact Hin.
Qed.

(** One step of stage 1 keeps the glyph positions and adds at most the id
    of the character it handles to the results. *)
Lemma stage1_step_spec fetch st ic :
  ids_ok (s1_glyphs st) ->
  ids_ok (s1_glyphs (stage1_step fetch st ic)) /\
  List.length (s1_glyphs (stage1_step fetch st ic)) = List.length (s1_glyphs st) /\
  exists extra,
    map ir_id (s1_intermediateResults (stage1_step fetch st ic))
    = map ir_id (s1_intermediateResults st) ++ extra /\
    sublist extra [fst ic].
Proof.
  intros Hids. unfold stage1_step.
  assert (Hf : ids_ok (update_glyph (fst ic) (with_status st_fetching) (s1_glyphs st))).
  { apply update_glyph_ids_ok; [reflexivity | exact Hids]. }
  destruct (fetch (char_string (snd ic))) as [image | errorMessage]; simpl.
  - split; [apply update_glyph_ids_ok; [reflexivity | exact Hf]|].
    split; [rewrite !update_glyph_length; reflexivity|].
    exists [fst ic]. split; [rewrite map_app; reflexivity | reflexivity].
  - split; [apply update_glyph_ids_ok; [reflexivity | exact Hf]|].
    split; [rewrite !update_glyph_length; reflexivity|].
    exists []. split; [rewrite app_nil_r; reflexivity | apply sublist_nil_l].
Qed.

Lemma stage1_fold_spec fetch ics :
  forall st,
    ids_ok (s1_glyphs st) ->
    ids_ok (s1_glyphs (foldl (stage1_step fetch) st ics)) /\
    List.length (s1_glyphs (foldl (stage1_step fetch) st ics)) = List.length (s1_glyphs st) /\
    exists extra,
      map ir_id (s1_intermediateResults (foldl (stage1_step fetch) st ics))
      = map ir_id (s1_intermediateResults st) ++ extra /\
      sublist extra (map fst ics).
Proof.
  induction ics as [|ic ics IH]; intros st Hids; simpl.
  - split; [exact Hids|]. split; [reflexivity|].
    exists []. split; [rewrite app_nil_r; reflexivity | constructor].
  - destruct (stage1_step_spec fetch st ic Hids) as (Hids1 & Hlen1 & e1 & He1 & Hs1).
    destruct (IH _ Hids1) as (Hids2 & Hlen2 & e2 & He2 & Hs2).
    split; [exact Hids2|]. split; [lia|].
    exists (e1 ++ e2). split.
    + rewrite He2, He1, app_assoc. reflexivity.
    + change (fst ic :: map fst ics) with ([fst ic] ++ map fst ics).
      apply sublist_app; assumption.
Qed.

Lemma imap_pair_fst {A : Type} (l : list A) (j : nat) :
  map fst (imap (fun i => pair (j + i)%nat) l) = seq j (List.length l).
Proof.
  revert j. induction l as [|a l IH]; intros j; simpl; [reflexivity|].
  rewrite Nat.add_0_r. f_equal. rewrite <- IH.
  f_equal. apply imap_ext. intros i x _. simpl. f_equal. lia.
Qed.

Lemma imap_initial_glyph_ids (l : list ascii) (j : nat) :
  forall i g, imap (fun i => initial_glyph (j + i)) l !! i = Some g -> gd_id g = (j + i)%nat.
Proof.
  revert j. induction l as [|a l IH]; intros j [|i] g; simpl; try discriminate.
  - intros [= <-]. simpl. lia.
  - intros Hg. replace (j + S i)%nat with (S j + i)%nat by lia.
    apply (IH (S j)). rewrite <- Hg. f_equal. apply imap_ext. intros k x _. simpl.
    f_equal. lia.
Qed.

(** After stage 1 the glyphs sit at their ids, one per character, and the
    results carry distinct ids of glyphs of the state. *)
Lemma stage1_spec fetch uniqueChars :
  let st := stage1 fetch uniqueChars in
  ids_ok (s1_glyphs st) /\
  List.length (s1_glyphs st) = List.length uniqueChars /\
  NoDup (map ir_id (s1_intermediateResults st)) /\
  (forall ir, ir ∈ s1_intermediateResults st -> (ir_id ir < List.length uniqueChars)%nat).
Proof.
  intros st. unfold st, stage1.
  set (init := mkStage1 (imap initial_glyph uniqueChars) [] []).
  assert (Hinit : ids_ok (s1_glyphs init)).
  { intros i g Hg. apply (imap_initial_glyph_ids uniqueChars 0 i g). exact Hg. }
  destruct (stage1_fold_spec fetch (imap pair uniqueChars) init Hinit)
    as (Hids & Hlen & extra & Hex & Hsub).
  simpl in Hex, Hlen. rewrite length_imap in Hlen.
  assert (Hfst : map fst (imap pair uniqueChars) = seq 0 (List.length uniqueChars))
    by exact (imap_pair_fst uniqueChars 0).
  rewrite Hfst in Hsub.
  split; [exact Hids|]. split; [exact Hlen|].
  rewrite Hex. split.
  - eapply sublist_NoDup; [apply NoDup_seq | exact Hsub].
  - intros ir Hin.
    assert (Hid : ir_id ir ∈ extra).
    { rewrite <- Hex. apply list_elem_of_In, in_map, list_elem_of_In, Hin. }
    pose proof (elem_of_sublist _ _ _ Hid Hsub) as Hseq.
    apply elem_of_seq in Hseq. lia.
Qed.

(** C2. The handler finishes, and for every result of stage 1 (every
    [ProcessedCharacter] that reaches stage 2) the glyph it leaves in the
    state, which is [done], has [yOffset = baselineY - maxY] when
    [maxY] is not -1 and [yOffset = 0] when it is, [baselineY] being the
    baseline computed from the values collected in stage 1. *)
Theorem stage2_yOffset (fetch : string -> ImageData + string) (charset : string) :
  let st := stage1 fetch (unique_chars [] (list_ascii_of_string charset)) in
  exists baselineY glyphs',
    determine_baseline (s1_maxYValues st) = Some baselineY /\
    handleFetchAndProcessCharacters fetch charset = Some glyphs' /\
    forall ir, ir ∈ s1_intermediateResults st ->
      exists g,
        glyphs' !! ir_id ir = Some g /\
        gd_id g = ir_id ir /\ gd_char g = ir_char ir /\ gd_status g = st_done /\
        gd_yOffset g
        = if pc_maxY (ir_processedData ir) =? -1 then 0%Q
          else (baselineY - inject_Z (pc_maxY (ir_processedData ir)))%Q.
Proof.
  intros st. unfold handleFetchAndProcessCharacters. fold st.
  destruct (determine_baseline_integer (s1_maxYValues st)) as (k & Hk).
  destruct (stage1_spec fetch (unique_chars [] (list_ascii_of_string charset)))
    as (Hids & Hlen & Hnd & Hlt). fold st in Hids, Hlen, Hnd, Hlt.
  destruct (stage2_spec (inject_Z k) (s1_intermediateResults st) (s1_glyphs st) Hids Hnd)
    as (gl' & Hgl' & _ & Hdone & _).
  exists (inject_Z k), gl'. rewrite Hk. split; [reflexivity|]. split; [exact Hgl'|].
  intros ir Hin.
  destruct (Hdone ir Hin) as (path & _ & Hg); [rewrite Hlen; apply Hlt, Hin|].
  exists (finalGlyphData (inject_Z k) ir path). split; [exact Hg|].
  repeat split.
Qed.

(** X29. The values collected in stage 1 are row indices of the fetched
    bitmaps: the hypothesis of the two baseline theorems holds in the
    pipeline, for bitmaps of any height a canvas can have. *)
Lemma stage1_maxYValues_row_index fetch uniqueChars :
  (forall c image, fetch c = inl image -> Z.of_nat (img_height image) < 2 ^ 32) ->
  Forall row_index (s1_maxYValues (stage1 fetch uniqueChars)).
Proof.
  intros Hh. unfold stage1.
  generalize (imap pair uniqueChars) as ics.
  assert (Hinit : Forall row_index
            (s1_maxYValues (mkStage1 (imap initial_glyph uniqueChars) [] [])))
    by constructor.
  revert Hinit. generalize (mkStage1 (imap initial_glyph uniqueChars) [] []) as st.
  intros st Hst ics. revert st Hst.
  induction ics as [|ic ics IH]; intros st Hst; simpl; [exact Hst|].
  apply IH. unfold stage1_step.
  destruct (fetch (char_string (snd ic))) as [image | msg] eqn:Hf; simpl; [|exact Hst].
  destruct (Z.eqb_spec (pc_maxY (processImage image)) (-1)); [exact Hst|].
  apply Forall_app. split; [exact Hst|]. constructor; [|constructor].
  specialize (Hh _ _ Hf).
  destruct (processImage_maxY_range image); unfold row_index; lia.
Qed.

(** * Further properties of the code *)

(** ** Foreground Extractor: the sentinel and the crop *)

(** Any property of the loop variables that holds initially and is kept
    by the loop body holds of the scan of the whole image. *)
Lemma scan_image_ind (image : ImageData)
      (I : (nat -> nat -> Prop) -> ScanState -> Prop) :
  (forall P P' s, (forall x y, P x y <-> P' x y) -> I P s -> I P' s) ->
  I (fun _ _ => False)
    (mkScanState (Z.of_nat (img_width image)) (Z.of_nat (img_height image))
                 (-1) (-1) (img_data image)) ->
  (forall P s x y, (x < img_width image)%nat -> (y < img_height image)%nat ->
                   I P s ->
                   I (fun x' y' => P x' y' \/ (x' = x /\ y' = y))
                     (scan_pixel (img_width image) y s x)) ->
  I (fun x y => (x < img_width image)%nat /\ (y < img_height image)%nat)
    (scan_image image).
Proof.
  intros Hext Hinit Hstep. unfold scan_image.
  assert (Hcols : forall P s y n,
             (n <= img_width image)%nat -> (y < img_height image)%nat -> I P s ->
             I (fun x' y' => P x' y' \/ (y' = y /\ (x' < n)%nat))
               (foldl (scan_pixel (img_width image) y) s (seq 0 n))).
  { intros P s y n Hn Hy Hs. induction n as [|n IH].
    - simpl. eapply Hext; [|exact Hs].
      intros; split; [auto | intros [?|[_ ?]]; [auto | lia]].
    - rewrite seq_S, foldl_app. simpl.
      eapply Hext; [|apply Hstep; [| |apply IH]]; try lia.
      intros x' y'. simpl. split.
      + intros [[?|[? ?]]|[? ?]]; auto; right; split; auto; lia.
      + intros [?|[? ?]]; auto.
        destruct (Nat.eq_dec x' n); [right; auto | left; right; split; auto; lia]. }
  assert (Hrows : forall m, (m <= img_height image)%nat ->
             I (fun x' y' => (x' < img_width image)%nat /\ (y' < m)%nat)
               (foldl (scan_row (img_width image))
                  (mkScanState (Z.of_nat (img_width image)) (Z.of_nat (img_height image))
                               (-1) (-1) (img_data image))
                  (seq 0 m))).
  { intros m Hm. induction m as [|m IH].
    - simpl. eapply Hext; [|exact Hinit]. intros x y. split; [tauto | lia].
    - rewrite seq_S, foldl_app. simpl. unfold scan_row at 1.
      eapply Hext; [|apply Hcols; [reflexivity| |apply IH]]; try lia.
      intros x' y'. simpl. split.
      + intros [[? ?]|[? ?]]; split; auto; lia.
      + intros [? ?]. destruct (Nat.eq_dec y' m); [right; auto | left; split; auto; lia]. }
  apply Hrows. reflexivity.
Qed.

Lemma strip_inv_colours image P s : strip_inv image P s -> colours_kept image (sdata s).
Proof.
  intros [_ _ Hk] j Hj. apply Hk. intros x y _ _ ->.
  rewrite pixel_index_mod in Hj; lia.
Qed.

Lemma scan_image_strip image :
  strip_inv image (fun x y => (x < img_width image)%nat /\ (y < img_height image)%nat)
            (scan_image image).
Proof.
  apply (scan_image_ind image (strip_inv image)).
  - intros P P' s HPP [Hl Hz Hk]. split.
    + exact Hl.
    + intros x y HP. apply Hz, HPP, HP.
    + intros j Hj. apply Hk. intros x y HP. apply Hj, HPP, HP.
  - split; simpl; [reflexivity | tauto | reflexivity].
  - intros P s x y Hx Hy Hs. unfold scan_pixel.
    rewrite scan_pixel_classifies by (eapply strip_inv_colours; exact Hs).
    destruct Hs as [Hl Hz Hk].
    destruct (foreground_at image x y) eqn:Hfg; simpl.
    + split; simpl.
      * exact Hl.
      * intros x' y' [HP | [-> ->]] Hbg; [auto | congruence].
      * intros j Hj. apply Hk. intros x' y' HP. apply Hj. left. exact HP.
    + assert (Hnew :
                 <[(pixel_index (img_width image) y x + 3)%nat := 0]> (sdata s)
                   !! (pixel_index (img_width image) y x + 3)%nat
                 = (fun _ => 0) <$> (img_data image
                                       !! (pixel_index (img_width image) y x + 3)%nat)).
      { destruct (img_data image !! (pixel_index (img_width image) y x + 3)%nat) eqn:E; simpl.
        - apply list_lookup_insert_eq. rewrite Hl. eapply lookup_lt_Some, E.
        - apply lookup_ge_None. rewrite length_insert, Hl. eapply lookup_ge_None, E. }
      split; simpl.
      * rewrite length_insert. exact Hl.
      * intros x' y' HP Hbg.
        destruct (Nat.eq_dec (pixel_index (img_width image) y' x' + 3)%nat
                             (pixel_index (img_width image) y x + 3)%nat) as [Heq | Hne].
        -- rewrite Heq. exact Hnew.
        -- rewrite list_lookup_insert_ne by congruence.
           destruct HP as [HP | [-> ->]]; [auto | congruence].
      * intros j Hj. rewrite list_lookup_insert_ne.
        -- apply Hk. intros x' y' HP. apply Hj. left. exact HP.
        -- intros Heq. apply (Hj x y); [right; auto | exact Hfg | congruence].
Qed.

Lemma pixel_index_inj w x y x' y' :
  (x < w)%nat -> (x' < w)%nat ->
  pixel_index w y x = pixel_index w y' x' -> x = x' /\ y = y'.
Proof.
  unfold pixel_index. intros Hx Hx' Heq.
  assert (Hlin : (y * w + x = y' * w + x')%nat) by lia.
  assert (Hy : y = y').
  { assert (Hd : ((y * w + x) / w = (y' * w + x') / w)%nat) by (rewrite Hlin; reflexivity).
    rewrite !(Nat.add_comm _ x), (Nat.add_comm _ x') in Hd.
    rewrite !Nat.div_add, !Nat.div_small in Hd by lia. exact Hd. }
  subst y'. lia.
Qed.

(** The canvas after the scan, pixel by pixel. *)
Lemma scan_image_pixel image x y k :
  (x < img_width image)%nat -> (y < img_height image)%nat -> (k < 4)%nat ->
  default 0 (sdata (scan_image image) !! (pixel_index (img_width image) y x + k)%nat)
  = default 0 (stripped_pixel image x y !! k).
Proof.
  intros Hx Hy Hk. destruct (scan_image_strip image) as [_ Hz Hkept].
  assert (Hcol : (k < 3)%nat ->
                 sdata (scan_image image) !! (pixel_index (img_width image) y x + k)%nat
                 = img_data image !! (pixel_index (img_width image) y x + k)%nat).
  { intros Hk3. apply Hkept. intros x' y' _ _ Heq.
    pose proof (pixel_index_mod (img_width image) y x k ltac:(lia)) as H1.
    pose proof (pixel_index_mod (img_width image) y' x' 3 ltac:(lia)) as H2.
    rewrite Heq in H1. lia. }
  unfold stripped_pixel.
  destruct k as [|[|[|[|k]]]]; try lia; simpl.
  - rewrite Hcol by lia. rewrite Nat.add_0_r. reflexivity.
  - rewrite Hcol by lia. reflexivity.
  - rewrite Hcol by lia. reflexivity.
  - destruct (foreground_at image x y) eqn:Hfg.
    + rewrite Hkept; [reflexivity|].
      intros x' y' [Hx' _] Hbg Heq.
      assert (Hidx : pixel_index (img_width image) y x = pixel_index (img_width image) y' x')
        by lia.
      apply pixel_index_inj in Hidx as [-> ->]; [congruence | lia | lia].
    + rewrite Hz by (auto; split; assumption).
      destruct (img_data image !! (pixel_index (img_width image) y x + 3)%nat); reflexivity.
Qed.

Lemma flat_map_chunk_length {A B : Type} (f : A -> list B) (n : nat) (l : list A) :
  (forall a, List.length (f a) = n) ->
  List.length (flat_map f l) = (List.length l * n)%nat.
Proof.
  intros Hf. induction l as [|a l IH]; simpl; [reflexivity|].
  rewrite length_app, Hf, IH. reflexivity.
Qed.

(** Reading a concatenation of chunks of the same length. *)
Lemma flat_map_chunk_lookup {A B : Type} (f : A -> list B) (n : nat) (l : list A) i k :
  (forall a, List.length (f a) = n) -> (k < n)%nat ->
  flat_map f l !! (i * n + k)%nat = l !! i ≫= (fun a => f a !! k).
Proof.
  intros Hf Hk. revert i. induction l as [|a l IH]; intros i; simpl.
  - destruct i; reflexivity.
  - destruct i as [|i]; simpl.
    + apply lookup_app_l. rewrite Hf. exact Hk.
    + rewrite lookup_app_r by (rewrite Hf; lia).
      rewrite Hf. replace (n + i * n + k - n)%nat with (i * n + k)%nat by lia.
      apply IH.
Qed.

Lemma canvas_pixel_length w h d x y : List.length (canvas_pixel w h d x y) = 4%nat.
Proof. unfold canvas_pixel. destruct ((x <? w)%nat && (y <? h)%nat); reflexivity. Qed.

(** [getImageData] returns a bitmap of the size asked for, whose pixel
    [(dx, dy)] is pixel [(sx + dx, sy + dy)] of the canvas. *)
Lemma getImageData_length w h d sx sy sw sh :
  List.length (img_data (getImageData w h d sx sy sw sh)) = (4 * sw * sh)%nat.
Proof.
  unfold getImageData. simpl.
  rewrite (flat_map_chunk_length _ (sw * 4)).
  - rewrite length_seq. lia.
  - intros dy. rewrite (flat_map_chunk_length _ 4).
    + rewrite length_seq. reflexivity.
    + intros dx. apply canvas_pixel_length.
Qed.

Lemma getImageData_lookup w h d sx sy sw sh dx dy k :
  (dx < sw)%nat -> (dy < sh)%nat -> (k < 4)%nat ->
  img_data (getImageData w h d sx sy sw sh) !! (pixel_index sw dy dx + k)%nat
  = canvas_pixel w h d (sx + dx) (sy + dy) !! k.
Proof.
  intros Hdx Hdy Hk. unfold getImageData, pixel_index. simpl.
  replace ((dy * sw + dx) * 4 + k)%nat with (dy * (sw * 4) + (dx * 4 + k))%nat by lia.
  rewrite (flat_map_chunk_lookup _ (sw * 4)).
  - rewrite lookup_seq_lt by exact Hdy. simpl.
    rewrite (flat_map_chunk_lookup _ 4).
    + rewrite lookup_seq_lt by exact Hdx. reflexivity.
    + intros a. apply canvas_pixel_length.
    + exact Hk.
  - intros a. rewrite (flat_map_chunk_length _ 4).
    + rewrite length_seq. reflexivity.
    + intros b. apply canvas_pixel_length.
  - lia.
Qed.

(** X1. [processImage] returns the empty sentinel ([maxY = -1]) exactly
    when every pixel of the input is within background tolerance. *)
Theorem processImage_sentinel_iff (image : ImageData) :
  pc_maxY (processImage image) = -1 <->
  (forall x y, (x < img_width image)%nat -> (y < img_height image)%nat ->
               within_tolerance image x y).
Proof.
  destruct (scan_image_inv image) as [_ Hcov Ht _]. unfold processImage. split.
  - intros Hm x y Hx Hy. apply foreground_at_false.
    destruct (foreground_at image x y) eqn:Hfg; [exfalso | reflexivity].
    specialize (Hcov x y (conj Hx Hy) Hfg).
    destruct (Z.eqb_spec (maxX (scan_image image)) (-1)); [lia|].
    destruct (Z.eqb_spec (maxY (scan_image image)) (-1)); [lia|].
    simpl in Hm. lia.
  - intros Hbg.
    destruct Ht as [(_ & _ & HX & _) | ((x & y & [Hx Hy] & Hfg & _) & _)].
    + rewrite HX. reflexivity.
    + specialize (Hbg x y Hx Hy). apply foreground_at_false in Hbg. congruence.
Qed.

(** Size of the record returned by [processImage]. *)
Lemma processImage_dims_data (image : ImageData) :
  let pc := processImage image in
  1 <= pc_width pc /\ 1 <= pc_height pc /\
  Z.of_nat (img_width (pc_imageData pc)) = pc_width pc /\
  Z.of_nat (img_height (pc_imageData pc)) = pc_height pc /\
  List.length (img_data (pc_imageData pc))
  = (4 * img_width (pc_imageData pc) * img_height (pc_imageData pc))%nat.
Proof.
  unfold processImage.
  destruct ((maxX (scan_image image) =? -1) || (maxY (scan_image image) =? -1)); simpl.
  - repeat split; lia.
  - split; [lia|]. split; [lia|]. split; [lia|]. split; [lia|].
    apply getImageData_length.
Qed.

(** X3. Whatever the input, the record returned by [processImage] is
    consistent: [width] and [height] are at least 1, they are the
    dimensions of the returned bitmap, and the bitmap holds
    [4 * width * height] bytes. *)
Theorem processImage_bitmap_size (image : ImageData) :
  let pc := processImage image in
  1 <= pc_width pc /\ 1 <= pc_height pc /\
  Z.of_nat (img_width (pc_imageData pc)) = pc_width pc /\
  Z.of_nat (img_height (pc_imageData pc)) = pc_height pc /\
  List.length (img_data (pc_imageData pc))
  = (4 * img_width (pc_imageData pc) * img_height (pc_imageData pc))%nat.
Proof. exact (processImage_dims_data image). Qed.

(** The box of a result that is not the sentinel lies inside the image. *)
Lemma scan_image_box (image : ImageData) :
  pc_maxY (processImage image) <> -1 ->
  let s := scan_image image in
  0 <= minX s <= maxX s /\ maxX s < Z.of_nat (img_width image) /\
  0 <= minY s <= maxY s /\ maxY s < Z.of_nat (img_height image) /\
  processImage image
  = mkProcessedCharacter ""
      (getImageData (img_width image) (img_height image) (sdata s)
         (Z.to_nat (minX s)) (Z.to_nat (minY s))
         (Z.to_nat (maxX s - minX s + 1)) (Z.to_nat (maxY s - minY s + 1)))
      (maxX s - minX s + 1) (maxY s - minY s + 1) (maxY s).
Proof.
  intros Hm s. destruct (scan_image_inv image) as [_ Hcov Ht _]. fold s in Hcov, Ht.
  unfold processImage in *. fold s in Hm |- *.
  destruct Ht as [(_ & _ & HX & _) | (H1 & H2 & H3 & H4)].
  { exfalso. apply Hm. rewrite HX. reflexivity. }
  destruct H1 as (x1 & y1 & [? ?] & Hf1 & ?), H2 as (x2 & y2 & [? ?] & Hf2 & ?),
           H3 as (x3 & y3 & [? ?] & Hf3 & ?), H4 as (x4 & y4 & [? ?] & Hf4 & ?).
  pose proof (Hcov x1 y1 ltac:(split; assumption) Hf1).
  pose proof (Hcov x3 y3 ltac:(split; assumption) Hf3).
  destruct (Z.eqb_spec (maxX s) (-1)); [lia|].
  destruct (Z.eqb_spec (maxY s) (-1)); [lia|]. simpl.
  rewrite !Z.max_r by lia. repeat split; lia.
Qed.

(** Reading a byte of the crop. *)
Lemma crop_pixel_lookup (image : ImageData) (dx dy k : nat) :
  pc_maxY (processImage image) <> -1 ->
  (dx < img_width (pc_imageData (processImage image)))%nat ->
  (dy < img_height (pc_imageData (processImage image)))%nat ->
  (k < 4)%nat ->
  img_data (pc_imageData (processImage image))
    !! (pixel_index (img_width (pc_imageData (processImage image))) dy dx + k)%nat
  = stripped_pixel image (Z.to_nat (minX (scan_image image)) + dx)
                         (Z.to_nat (minY (scan_image image)) + dy) !! k.
Proof.
  intros Hm. destruct (scan_image_box image Hm) as (HX & HXw & HY & HYh & ->).
  cbn [pc_imageData].
  change (img_width (getImageData ?w ?h ?d ?sx ?sy ?sw ?sh)) with sw.
  change (img_height (getImageData ?w ?h ?d ?sx ?sy ?sw ?sh)) with sh.
  intros Hdx Hdy Hk.
  rewrite getImageData_lookup by assumption.
  set (x := (Z.to_nat (minX (scan_image image)) + dx)%nat).
  set (y := (Z.to_nat (minY (scan_image image)) + dy)%nat).
  assert (Hx : (x < img_width image)%nat) by (unfold x; lia).
  assert (Hy : (y < img_height image)%nat) by (unfold y; lia).
  unfold canvas_pixel.
  destruct (Nat.ltb_spec x (img_width image)); [|lia].
  destruct (Nat.ltb_spec y (img_height image)); [|lia]. simpl.
  pose proof (scan_image_pixel image x y) as Hpix.
  destruct k as [|[|[|[|k]]]]; try lia; simpl; f_equal.
  - pose proof (Hpix 0%nat Hx Hy ltac:(lia)) as E. rewrite Nat.add_0_r in E. exact E.
  - apply (Hpix 1%nat); lia.
  - apply (Hpix 2%nat); lia.
  - apply (Hpix 3%nat); lia.
Qed.

Lemma stripped_pixel_alpha image x y :
  stripped_pixel image x y !! 3%nat
  = Some (if foreground_at image x y
          then default 0 (img_data image !! (pixel_index (img_width image) y x + 3)%nat)
          else 0).
Proof. reflexivity. Qed.

(** X4. In a result that is not the sentinel, the alpha byte of pixel
    [(dx, dy)] of the returned bitmap is 0 when pixel
    [(minX + dx, minY + dy)] of the input is background, and the alpha byte
    of that input pixel when it is foreground. *)
Theorem processImage_crop_alpha (image : ImageData) (dx dy : nat) :
  pc_maxY (processImage image) <> -1 ->
  (dx < img_width (pc_imageData (processImage image)))%nat ->
  (dy < img_height (pc_imageData (processImage image)))%nat ->
  let x := (Z.to_nat (minX (scan_image image)) + dx)%nat in
  let y := (Z.to_nat (minY (scan_image image)) + dy)%nat in
  alpha_at (pc_imageData (processImage image)) dy dx
  = Some (if foreground_at image x y then default 0 (alpha_at image y x) else 0).
Proof.
  intros Hm Hdx Hdy x y. unfold alpha_at at 1.
  rewrite (crop_pixel_lookup image dx dy 3 Hm Hdx Hdy) by lia.
  apply stripped_pixel_alpha.
Qed.

Lemma processImage_crop_alpha_witness :
  alpha_at (pc_imageData (processImage dot_3x2)) 0 1
  = Some (if foreground_at dot_3x2 (Z.to_nat (minX (scan_image dot_3x2)) + 1)
                                   (Z.to_nat (minY (scan_image dot_3x2)) + 0)
          then default 0 (alpha_at dot_3x2 (Z.to_nat (minY (scan_image dot_3x2)) + 0)
                                           (Z.to_nat (minX (scan_image dot_3x2)) + 1))
          else 0).
Proof.
  apply (processImage_crop_alpha dot_3x2 1 0).
  - vm_compute. discriminate.
  - vm_compute. lia.
  - vm_compute. lia.
Defined.

(** X5. From bitmap to outline: for a character that is not blank, the
    outline traced in stage 2 from the result of [processImage],
    rasterized with one font unit per pixel, covers pixel [(dx, dy)] of the
    crop exactly when pixel [(minX + dx, minY + dy)] of the fetched bitmap
    is foreground and has an alpha above 128. *)
Theorem pipeline_outline_mask (image : ImageData) :
  pc_maxY (processImage image) <> -1 ->
  let pc := processImage image in
  let s := scan_image image in
  exists path,
    imageDataToOpentypePath (pc_imageData pc) (pc_height pc) = Some path /\
    forall dx dy,
      rasterize path (pc_height pc) dx dy = true <->
      (Z.of_nat dx < pc_width pc) /\ (Z.of_nat dy < pc_height pc) /\
      foreground_at image (Z.to_nat (minX s) + dx) (Z.to_nat (minY s) + dy) = true /\
      js_gt (alpha_at image (Z.to_nat (minY s) + dy) (Z.to_nat (minX s) + dx)) 128 = true.
Proof.
  intros Hm pc s.
  destruct (imageDataToOpentypePath_runs (pc_imageData pc) (pc_height pc))
    as (runs & Hruns & Hin & _ & Hcov).
  exists (flat_map (spec_rectangle (pc_height pc)) runs). split; [exact Hruns|].
  intros dx dy. rewrite rasterize_rectangles.
  2:{ intros r x0 x1 Hel. apply Hin in Hel as (_ & ? & _). assumption. }
  rewrite Hcov.
  destruct (processImage_dims_data image) as (_ & _ & Hw & Hh & _). fold pc in Hw, Hh.
  split.
  - intros (Hdy & Hdx & Hop). split; [lia|]. split; [lia|].
    unfold opaque_at, alpha_at in Hop.
    unfold pc in Hop. rewrite (crop_pixel_lookup image dx dy 3 Hm) in Hop
      by (fold pc; lia).
    rewrite stripped_pixel_alpha in Hop. fold s in Hop. unfold alpha_at.
    destruct (foreground_at image _ _); [|discriminate]. split; [reflexivity|].
    destruct (img_data image !! _); [exact Hop | discriminate].
  - intros (Hdx & Hdy & Hfg & Hal). split; [lia|]. split; [lia|].
    unfold opaque_at, alpha_at.
    unfold pc. rewrite (crop_pixel_lookup image dx dy 3 Hm) by (fold pc; lia).
    rewrite stripped_pixel_alpha. fold s. rewrite Hfg. unfold alpha_at in Hal.
    destruct (img_data image !! _); [exact Hal | discriminate].
Qed.

Lemma pipeline_outline_mask_witness :
  exists path,
    imageDataToOpentypePath (pc_imageData (processImage dot_3x2))
                            (pc_height (processImage dot_3x2)) = Some path /\
    forall dx dy,
      rasterize path (pc_height (processImage dot_3x2)) dx dy = true <->
      (Z.of_nat dx < pc_width (processImage dot_3x2)) /\
      (Z.of_nat dy < pc_height (processImage dot_3x2)) /\
      foreground_at dot_3x2 (Z.to_nat (minX (scan_image dot_3x2)) + dx)
                            (Z.to_nat (minY (scan_image dot_3x2)) + dy) = true /\
      js_gt (alpha_at dot_3x2 (Z.to_nat (minY (scan_image dot_3x2)) + dy)
                              (Z.to_nat (minX (scan_image dot_3x2)) + dx)) 128 = true.
Proof.
  apply (pipeline_outline_mask dot_3x2). vm_compute. discriminate.
Defined.

(** ** Outline Tracer: empty outlines and the extent of an outline *)

Lemma flat_map_spec_rectangle_nil H runs :
  flat_map (spec_rectangle H) runs = [] -> runs = [].
Proof. destruct runs as [|[[r x0] x1] runs]; [reflexivity | discriminate]. Qed.

(** X6. The tracer returns the empty outline exactly when no pixel of the
    bitmap has an alpha above 128 (as for the 1x1 placeholder of a blank
    character). *)
Theorem trace_empty_iff (imageData : ImageData) (H : Z) :
  imageDataToOpentypePath imageData H = Some [] <->
  (forall x y, (x < img_width imageData)%nat -> (y < img_height imageData)%nat ->
               opaque_at imageData y x = false).
Proof.
  destruct (imageDataToOpentypePath_runs imageData H) as (runs & Hruns & Hin & _ & Hcov).
  rewrite Hruns. split.
  - intros [= Hnil]. apply flat_map_spec_rectangle_nil in Hnil. subst runs.
    intros x y Hx Hy. destruct (opaque_at imageData y x) eqn:Hop; [|reflexivity].
    destruct (proj2 (Hcov x y)) as (x0 & x1 & Hel & _); [auto|]. inversion Hel.
  - intros Hnone. destruct runs as [|[[r x0] x1] runs]; [reflexivity|].
    exfalso. destruct (proj1 (Hin (r, x0, x1))) as (Hr & Hle & Hw & Hall & _); [left|].
    specialize (Hall x0 ltac:(lia) Hle).
    rewrite (Hnone x0 r) in Hall; [discriminate | lia | exact Hr].
Qed.

(** X7. Every point of a traced outline has integer coordinates, with x
    between 0 and the bitmap's width and y between
    [charPixelHeight - height] and [charPixelHeight]: with the bitmap's own
    height as [charPixelHeight] the outline stays in the box of the
    glyph. *)
Theorem trace_points_in_box (imageData : ImageData) (H : Z) :
  exists path,
    imageDataToOpentypePath imageData H = Some path /\
    forall p, p ∈ path_points path ->
      exists a b : Z,
        p = (inject_Z a, inject_Z b) /\
        0 <= a <= Z.of_nat (img_width imageData) /\
        H - Z.of_nat (img_height imageData) <= b <= H.
Proof.
  destruct (imageDataToOpentypePath_runs imageData H) as (runs & Hruns & Hin & _ & _).
  exists (flat_map (spec_rectangle H) runs). split; [exact Hruns|].
  intros p Hp. unfold path_points in Hp.
  apply list_elem_of_In, in_flat_map in Hp as (c & Hc & Hp).
  apply in_flat_map in Hc as ([[r x0] x1] & Hrun & Hc).
  apply list_elem_of_In, Hin in Hrun. destruct Hrun as (Hr & Hle & Hw & _).
  simpl in Hc.
  destruct Hc as [<- | [<- | [<- | [<- | [<- | []]]]]]; simpl in Hp;
    try (destruct Hp as [<- | []]; eexists _, _; split; [reflexivity | lia]).
  destruct Hp.
Qed.

(** ** Glyph Transform Engine: the early return of [translatePath] *)

Lemma command_eq_refl c : command_eq c c.
Proof. destruct c; simpl; repeat split; reflexivity. Qed.

Lemma path_eq_refl p : path_eq p p.
Proof. induction p; constructor; [apply command_eq_refl | assumption]. Qed.

(** The early return of [translatePath] changes nothing: translating by
    (0, 0) is the identity on coordinates. *)
Lemma translatePath_map p dx dy :
  path_eq (translatePath p dx dy) (map (translate_command dx dy) p).
Proof.
  unfold translatePath.
  destruct (Qeq_bool dx 0) eqn:Ex, (Qeq_bool dy 0) eqn:Ey; simpl;
    try apply path_eq_refl.
  apply Qeq_bool_iff in Ex, Ey.
  induction p as [|c p IH]; simpl; constructor; [|exact IH].
  destruct c; simpl; repeat split; lra.
Qed.

(** ** Font Assembler: the glyph list and the metrics *)

Lemma charCodeAt0_None s : charCodeAt0 s = None <-> s = EmptyString.
Proof. destruct s; simpl; split; congruence. Qed.

(** Shape of the glyph list of the assembled font. *)
Lemma assembleTtfFont_glyphs_shape (glyphsData : list FontAssemblyGlyphData)
        (fontFamily : string) (upm : Z) :
  exists notdef space rest,
    glyphs (assembleTtfFont glyphsData fontFamily upm) = notdef :: space :: rest /\
    ot_name notdef = ".notdef"%string /\ ot_unicode notdef = 0 /\
    ot_name space = "space"%string /\ ot_unicode space = 32 /\ ot_path space = [] /\
    map ot_name rest
    = List.filter (fun c => negb (String.eqb c " ") && negb (String.eqb c ""))
                  (map fa_char glyphsData) /\
    Forall (fun g => charCodeAt0 (ot_name g) = Some (ot_unicode g)) rest.
Proof.
  unfold assembleTtfFont. cbn [glyphs].
  eexists _, _, _. split; [reflexivity|]. cbn [ot_name ot_unicode ot_path].
  repeat (split; [reflexivity|]).
  induction glyphsData as [|g gs [IH1 IH2]]; [split; [reflexivity | constructor]|].
  cbn [flat_map map List.filter]. unfold assemble_glyph at 1 3.
  destruct (String.eqb_spec (fa_char g) " ") as [Hsp | Hsp]; cbn [negb andb app].
  - split; assumption.
  - destruct (fa_char g) as [|a rest'] eqn:Hc; cbn [charCodeAt0 String.eqb negb andb app].
    + split; assumption.
    + cbn [map ot_name]. split.
      * f_equal. exact IH1.
      * constructor; [reflexivity | exact IH2].
Qed.

(** X12. The assembled font always starts with [.notdef] (code point 0)
    and [space] (code point 32, empty outline); after them comes one glyph
    for each entry whose character is neither [" "] nor empty, in the order
    of the entries, named by the character and mapped to the code of its
    first code unit.  Entries for the space and entries without a
    character add no glyph. *)
Theorem assembleTtfFont_glyph_list (glyphsData : list FontAssemblyGlyphData)
        (fontFamily : string) (upm : Z) :
  exists notdef space rest,
    glyphs (assembleTtfFont glyphsData fontFamily upm) = notdef :: space :: rest /\
    ot_name notdef = ".notdef"%string /\ ot_unicode notdef = 0 /\
    ot_name space = "space"%string /\ ot_unicode space = 32 /\ ot_path space = [] /\
    map ot_name rest
    = List.filter (fun c => negb (String.eqb c " ") && negb (String.eqb c ""))
                  (map fa_char glyphsData) /\
    Forall (fun g => charCodeAt0 (ot_name g) = Some (ot_unicode g)) rest.
Proof. exact (assembleTtfFont_glyphs_shape glyphsData fontFamily upm). Qed.




(** ** The batch: characters, stage 1, the final state *)

Lemma unique_chars_spec cs :
  forall seen,
    NoDup (unique_chars seen cs) /\
    (forall c, c ∈ unique_chars seen cs <-> c ∈ cs /\ c ∉ seen) /\
    sublist (unique_chars seen cs) cs.
Proof.
  induction cs as [|c cs IH]; intros seen; simpl.
  - split; [constructor|]. split; [|constructor].
    intros c. split; [intros H; inversion H | intros [H _]; inversion H].
  - case_bool_decide as Hc.
    + destruct (IH seen) as (Hnd & Hin & Hsub).
      split; [exact Hnd|]. split; [|apply sublist_cons, Hsub].
      intros c'. rewrite Hin, elem_of_cons. split; [tauto|].
      intros [[-> | ?] ?]; [contradiction | tauto].
    + destruct (IH (c :: seen)) as (Hnd & Hin & Hsub).
      split; [|split; [|apply sublist_skip, Hsub]].
      * constructor; [|exact Hnd]. rewrite Hin, elem_of_cons. tauto.
      * intros c'. rewrite !elem_of_cons, Hin, elem_of_cons.
        destruct (decide (c' = c)) as [-> | Hne]; tauto.
Qed.

Lemma first_before_cons c0 cs c d :
  d <> c0 -> first_before cs c d -> first_before (c0 :: cs) c d.
Proof.
  intros Hd (p & Hp & Hq). exists (S p). split; [exact Hp|].
  intros [|q] Hle; simpl.
  - intros [= ->]. contradiction.
  - apply Hq. lia.
Qed.

Lemma first_before_asym cs c d : first_before cs c d -> first_before cs d c -> False.
Proof.
  intros (p1 & Hp1 & Hq1) (p2 & Hp2 & Hq2).
  destruct (Nat.le_gt_cases p2 p1) as [Hle | Hlt].
  - exact (Hq1 p2 Hle Hp2).
  - apply (Hq2 p1); [lia | exact Hp1].
Qed.

(** The list is in the order in which the characters first occur. *)
Lemma unique_chars_order cs :
  forall seen, in_order (first_before cs) (unique_chars seen cs).
Proof.
  induction cs as [|c0 cs IH]; intros seen i j c d Hij Hi Hj; simpl in Hi, Hj.
  - rewrite lookup_nil in Hi. discriminate.
  - assert (Hfresh : forall seen' k, c0 ∈ seen' -> unique_chars seen' cs !! k = Some d -> d <> c0).
    { intros seen' k Hc0 Hk ->.
      apply list_elem_of_lookup_2 in Hk.
      destruct (unique_chars_spec cs seen') as (_ & Hin & _).
      apply Hin in Hk. tauto. }
    case_bool_decide as Hc.
    + apply first_before_cons; [exact (Hfresh seen j Hc Hj)|].
      exact (IH seen i j c d Hij Hi Hj).
    + destruct j as [|j]; [lia|]. simpl in Hj.
      assert (Hd : d <> c0) by (apply (Hfresh (c0 :: seen) j); [left | exact Hj]).
      destruct i as [|i]; simpl in Hi.
      * injection Hi as <-. exists 0%nat. split; [reflexivity|].
        intros q Hq. replace q with 0%nat by lia. simpl. congruence.
      * apply first_before_cons; [exact Hd|].
        apply (IH (c0 :: seen) i j c d); [lia | exact Hi | exact Hj].
Qed.

(** Two lists without repetition that have the same elements, in the
    order of the same asymmetric relation, are equal. *)
Lemma in_order_unique {A : Type} (R : A -> A -> Prop) (l1 l2 : list A) :
  (forall a b, R a b -> R b a -> False) ->
  NoDup l1 -> NoDup l2 -> (forall a, a ∈ l1 <-> a ∈ l2) ->
  in_order R l1 -> in_order R l2 -> l1 = l2.
Proof.
  intros Hasym. revert l2.
  induction l1 as [|a l1 IH]; intros l2 Hnd1 Hnd2 Hel Ho1 Ho2.
  - destruct l2 as [|b l2]; [reflexivity|].
    assert (H : b ∈ []) by (apply Hel; left). inversion H.
  - destruct l2 as [|b l2].
    { assert (H : a ∈ []) by (apply Hel; left). inversion H. }
    apply NoDup_cons in Hnd1 as [Ha Hnd1]. apply NoDup_cons in Hnd2 as [Hb Hnd2].
    assert (Hab : a = b).
    { assert (Ha2 : a ∈ b :: l2) by (apply Hel; left).
      apply elem_of_cons in Ha2 as [Hab | Ha2]; [exact Hab|].
      assert (Hb1 : b ∈ a :: l1) by (apply Hel; left).
      apply elem_of_cons in Hb1 as [Hba | Hb1]; [congruence|].
      exfalso.
      apply list_elem_of_lookup in Ha2 as [j Hj]. apply list_elem_of_lookup in Hb1 as [i Hi].
      apply (Hasym a b).
      - apply (Ho1 0%nat (S i)); [lia | reflexivity | exact Hi].
      - apply (Ho2 0%nat (S j)); [lia | reflexivity | exact Hj]. }
    subst b. f_equal. apply IH; [exact Hnd1 | exact Hnd2 | | |].
    + intros c. split; intros Hc.
      * assert (Hc' : c ∈ a :: l2) by (apply Hel; right; exact Hc).
        apply elem_of_cons in Hc' as [-> | Hc']; [contradiction | exact Hc'].
      * assert (Hc' : c ∈ a :: l1) by (apply Hel; right; exact Hc).
        apply elem_of_cons in Hc' as [-> | Hc']; [contradiction | exact Hc'].
    + intros i j c d Hij Hi Hj. apply (Ho1 (S i) (S j)); [lia | exact Hi | exact Hj].
    + intros i j c d Hij Hi Hj. apply (Ho2 (S i) (S j)); [lia | exact Hi | exact Hj].
Qed.

(** X16. The characters of a batch are the characters of the charset
    without repetition, in the order of first occurrence: the list has no
    duplicates, holds exactly the characters of the charset, is a
    subsequence of it, and of two of its characters the earlier one occurs
    in the charset before every occurrence of the later one.  It is the
    only list without duplicates that holds the characters of the charset
    in that order. *)
Theorem unique_chars_set (cs : list ascii) :
  let uniqueChars := unique_chars [] cs in
  NoDup uniqueChars /\
  (forall c, c ∈ uniqueChars <-> c ∈ cs) /\
  sublist uniqueChars cs /\
  (forall i j c d, (i < j)%nat ->
     uniqueChars !! i = Some c -> uniqueChars !! j = Some d ->
     exists p, cs !! p = Some c /\ forall q, (q <= p)%nat -> cs !! q <> Some d) /\
  (forall l : list ascii,
     NoDup l -> (forall c, c ∈ l <-> c ∈ cs) ->
     (forall i j c d, (i < j)%nat -> l !! i = Some c -> l !! j = Some d ->
        exists p, cs !! p = Some c /\ forall q, (q <= p)%nat -> cs !! q <> Some d) ->
     l = uniqueChars).
Proof.
  intros uniqueChars.
  destruct (unique_chars_spec cs []) as (Hnd & Hin & Hsub).
  assert (Hel : forall c, c ∈ uniqueChars <-> c ∈ cs).
  { intros c. unfold uniqueChars. rewrite Hin. split; [tauto|].
    intros H. split; [exact H|]. intros H'. inversion H'. }
  split; [exact Hnd|]. split; [exact Hel|]. split; [exact Hsub|].
  split; [exact (unique_chars_order cs [])|].
  intros l Hndl Hell Hol.
  apply (in_order_unique (first_before cs)).
  - apply first_before_asym.
  - exact Hndl.
  - exact Hnd.
  - intros c. rewrite Hell, Hel. reflexivity.
  - exact Hol.
  - exact (unique_chars_order cs []).
Qed.

Lemma stage1_fold_results fetch ics :
  forall st,
    s1_intermediateResults (foldl (stage1_step fetch) st ics)
    = s1_intermediateResults st ++ stage1_results fetch ics.
Proof.
  induction ics as [|ic ics IH]; intros st; simpl.
  - rewrite app_nil_r. reflexivity.
  - rewrite IH. unfold stage1_step.
    destruct (fetch (char_string (snd ic))); simpl.
    + rewrite <- app_assoc. reflexivity.
    + reflexivity.
Qed.

Lemma stage1_fold_maxY fetch ics :
  forall st,
    s1_maxYValues (foldl (stage1_step fetch) st ics)
    = s1_maxYValues st
      ++ List.filter (fun v => negb (v =? -1))
           (map (fun ir => pc_maxY (ir_processedData ir)) (stage1_results fetch ics)).
Proof.
  induction ics as [|ic ics IH]; intros st; simpl.
  - rewrite app_nil_r. reflexivity.
  - rewrite IH. unfold stage1_step.
    destruct (fetch (char_string (snd ic))) as [image | msg]; simpl; [|reflexivity].
    destruct (pc_maxY (processImage image) =? -1); simpl; [reflexivity|].
    rewrite <- app_assoc. reflexivity.
Qed.

Lemma stage1_fold_glyphs fetch ics :
  forall st,
    ids_ok (s1_glyphs st) -> NoDup (map fst ics) ->
    (forall i c, (i, c) ∈ ics ->
                 s1_glyphs (foldl (stage1_step fetch) st ics) !! i
                 = stage1_glyph fetch c <$> (s1_glyphs st !! i)) /\
    (forall i, i ∉ map fst ics ->
               s1_glyphs (foldl (stage1_step fetch) st ics) !! i = s1_glyphs st !! i).
Proof.
  induction ics as [|[j cj] ics IH]; intros st Hids Hnd; simpl.
  - split; [intros i c H; inversion H | reflexivity].
  - simpl in Hnd. apply NoDup_cons in Hnd as [Hj Hnd].
    destruct (stage1_step_spec fetch st (j, cj) Hids) as (Hids1 & _).
    destruct (IH _ Hids1 Hnd) as [IHin IHout].
    assert (Hstep : forall i,
               s1_glyphs (stage1_step fetch st (j, cj)) !! i
               = if decide (i = j) then stage1_glyph fetch cj <$> (s1_glyphs st !! i)
                 else s1_glyphs st !! i).
    { intros i. unfold stage1_step, stage1_glyph. simpl.
      assert (Hf : ids_ok (update_glyph j (with_status st_fetching) (s1_glyphs st)))
        by (apply update_glyph_ids_ok; [reflexivity | exact Hids]).
      destruct (fetch (char_string cj)); simpl;
        rewrite update_glyph_lookup by exact Hf;
        rewrite update_glyph_lookup by exact Hids;
        destruct (decide (i = j)); [|reflexivity| |reflexivity];
        destruct (s1_glyphs st !! i); reflexivity. }
    split.
    + intros i c Hin. apply elem_of_cons in Hin as [[= -> ->] | Hin].
      * rewrite IHout by exact Hj. rewrite Hstep.
        destruct (decide (j = j)); [reflexivity | congruence].
      * rewrite (IHin i c Hin), Hstep.
        destruct (decide (i = j)) as [-> | _]; [|reflexivity].
        exfalso. apply Hj. apply list_elem_of_In, in_map_iff.
        exists (j, c). split; [reflexivity | apply list_elem_of_In, Hin].
    + intros i Hi. rewrite IHout.
      * rewrite Hstep. destruct (decide (i = j)) as [-> | _]; [|reflexivity].
        exfalso. apply Hi. left.
      * intros Hin. apply Hi. right. exact Hin.
Qed.

Lemma stage1_results_elem fetch ics ir :
  ir ∈ stage1_results fetch ics <->
  exists i c image, (i, c) ∈ ics /\ fetch (char_string c) = inl image /\
                    ir = mkIntermediate i (char_string c) (processImage image).
Proof.
  unfold stage1_results. rewrite list_elem_of_In, in_flat_map. split.
  - intros ([i c] & Hin & Hir). simpl in Hir.
    destruct (fetch (char_string c)) as [image|] eqn:Hf; [|destruct Hir].
    destruct Hir as [<- | []]. exists i, c, image.
    split; [apply list_elem_of_In, Hin | auto].
  - intros (i & c & image & Hin & Hf & ->). exists (i, c).
    split; [apply list_elem_of_In, Hin|]. simpl. rewrite Hf. left. reflexivity.
Qed.

Lemma imap_pair_elem {A : Type} (l : list A) i c :
  (i, c) ∈ imap pair l <-> l !! i = Some c.
Proof.
  rewrite elem_of_lookup_imap. split.
  - intros (j & y & [= -> ->] & H). exact H.
  - intros H. exists i, c. auto.
Qed.

(** The state a batch ends in, index by index. *)
Lemma batch_state_lookup (fetch : string -> ImageData + string) (charset : string) :
  let uniqueChars := unique_chars [] (list_ascii_of_string charset) in
  exists baselineY glyphs',
    determine_baseline (s1_maxYValues (stage1 fetch uniqueChars)) = Some baselineY /\
    handleFetchAndProcessCharacters fetch charset = Some glyphs' /\
    List.length glyphs' = List.length uniqueChars /\
    forall i c, uniqueChars !! i = Some c ->
      match fetch (char_string c) with
      | inl image =>
          exists path,
            imageDataToOpentypePath (pc_imageData (processImage image))
                                    (pc_height (processImage image)) = Some path /\
            glyphs' !! i
            = Some (finalGlyphData baselineY
                      (mkIntermediate i (char_string c) (processImage image)) path)
      | inr errorMessage =>
          glyphs' !! i
          = Some (mkGlyphData i (char_string c) st_error None None None None 0 0 1
                              (Some errorMessage))
      end.
Proof.
  intros uniqueChars. unfold handleFetchAndProcessCharacters. fold uniqueChars.
  set (st := stage1 fetch uniqueChars).
  destruct (determine_baseline_integer (s1_maxYValues st)) as (k & Hk).
  destruct (stage1_spec fetch uniqueChars) as (Hids & Hlen & Hnd & Hlt).
  fold st in Hids, Hlen, Hnd, Hlt.
  destruct (stage2_spec (inject_Z k) (s1_intermediateResults st) (s1_glyphs st) Hids Hnd)
    as (gl' & Hgl' & Hlen' & Hdone & Hrest).
  exists (inject_Z k), gl'. rewrite Hk.
  split; [reflexivity|]. split; [exact Hgl'|]. split; [lia|].
  (* stage 1, index by index *)
  set (init := mkStage1 (imap initial_glyph uniqueChars) [] []).
  assert (Hinit : ids_ok (s1_glyphs init)).
  { intros i g Hg. apply (imap_initial_glyph_ids uniqueChars 0 i g). exact Hg. }
  assert (Hidx : NoDup (map fst (imap pair uniqueChars))).
  { assert (Hfst : map fst (imap pair uniqueChars) = seq 0 (List.length uniqueChars))
      by exact (imap_pair_fst uniqueChars 0).
    rewrite Hfst. apply NoDup_seq. }
  destruct (stage1_fold_glyphs fetch (imap pair uniqueChars) init Hinit Hidx) as [Hgl _].
  pose proof (stage1_fold_results fetch (imap pair uniqueChars) init) as Hres.
  simpl in Hres. change (foldl (stage1_step fetch) init (imap pair uniqueChars)) with st in *.
  intros i c Hc.
  assert (Hgi : s1_glyphs st !! i = Some (stage1_glyph fetch c (initial_glyph i c))).
  { rewrite (Hgl i c) by (apply imap_pair_elem, Hc).
    simpl. rewrite list_lookup_imap, Hc. reflexivity. }
  destruct (fetch (char_string c)) as [image | msg] eqn:Hf.
  - apply (Hdone (mkIntermediate i (char_string c) (processImage image))).
    + rewrite Hres. apply stage1_results_elem. exists i, c, image.
      split; [apply imap_pair_elem, Hc | auto].
    + simpl. rewrite Hlen. eapply lookup_lt_Some, Hc.
  - rewrite Hrest.
    + rewrite Hgi. unfold stage1_glyph. rewrite Hf. reflexivity.
    + intros Hin. apply list_elem_of_In, in_map_iff in Hin as (ir & Hid & Hir).
      apply list_elem_of_In in Hir. rewrite Hres in Hir.
      apply stage1_results_elem in Hir as (i' & c' & image & Hic & Hf' & ->).
      simpl in Hid. subst i'. apply imap_pair_elem in Hic.
      rewrite Hc in Hic. injection Hic as <-. congruence.
Qed.

(** X17. The batch always completes, with one glyph per distinct
    character, in order.  A character whose fetch succeeded ends as the
    [done] glyph built in stage 2 from its [processImage] result and its
    traced outline; a character whose fetch failed ends as an [error]
    glyph carrying the rejection message, with no outline and no width, and
    it does not disturb the other characters.  No glyph is left pending,
    fetching, processing or converting. *)
Theorem batch_final_state (fetch : string -> ImageData + string) (charset : string) :
  let uniqueChars := unique_chars [] (list_ascii_of_string charset) in
  exists baselineY glyphs',
    determine_baseline (s1_maxYValues (stage1 fetch uniqueChars)) = Some baselineY /\
    handleFetchAndProcessCharacters fetch charset = Some glyphs' /\
    List.length glyphs' = List.length uniqueChars /\
    forall i c, uniqueChars !! i = Some c ->
      match fetch (char_string c) with
      | inl image =>
          exists path,
            imageDataToOpentypePath (pc_imageData (processImage image))
                                    (pc_height (processImage image)) = Some path /\
            glyphs' !! i
            = Some (finalGlyphData baselineY
                      (mkIntermediate i (char_string c) (processImage image)) path)
      | inr errorMessage =>
          glyphs' !! i
          = Some (mkGlyphData i (char_string c) st_error None None None None 0 0 1
                              (Some errorMessage))
      end.
Proof. exact (batch_state_lookup fetch charset). Qed.

(** The two lists stage 1 builds. *)
Lemma stage1_lists (fetch : string -> ImageData + string)
        (uniqueChars : list ascii) :
  let st := stage1 fetch uniqueChars in
  s1_maxYValues st
  = List.filter (fun v => negb (v =? -1))
      (map (fun ir => pc_maxY (ir_processedData ir)) (s1_intermediateResults st)) /\
  s1_intermediateResults st = stage1_results fetch (imap pair uniqueChars).
Proof.
  unfold stage1.
  set (init := mkStage1 (imap initial_glyph uniqueChars) [] []).
  pose proof (stage1_fold_results fetch (imap pair uniqueChars) init) as Hres.
  pose proof (stage1_fold_maxY fetch (imap pair uniqueChars) init) as Hmax.
  simpl in Hres, Hmax. rewrite Hres, Hmax. split; reflexivity.
Qed.

(** X18. The values the baseline is computed from are the [maxY] of the
    stage-1 results other than -1, in the order of the characters: blank
    characters and failed characters do not take part. *)
Theorem stage1_collected_values (fetch : string -> ImageData + string)
        (uniqueChars : list ascii) :
  let st := stage1 fetch uniqueChars in
  s1_maxYValues st
  = List.filter (fun v => negb (v =? -1))
      (map (fun ir => pc_maxY (ir_processedData ir)) (s1_intermediateResults st)) /\
  s1_intermediateResults st = stage1_results fetch (imap pair uniqueChars).
Proof. exact (stage1_lists fetch uniqueChars). Qed.

(** ** Baseline Calibrator: any list of values *)

Lemma foldl_pick_key_elem o ks : forall a, foldl (pick_key o) a ks ∈ a :: ks.
Proof.
  induction ks as [|b ks IH]; intros a; simpl; [left|].
  specialize (IH (pick_key o a b)). apply elem_of_cons in IH as [-> | IH].
  - unfold pick_key. destruct (js_gt_count _ _); [left | right; left].
  - right; right. exact IH.
Qed.

(** The reduction returns a key of the table. *)
Lemma baseline_in_list (l : list Z) :
  l <> [] -> exists b, determine_baseline l = Some (inject_Z b) /\ b ∈ l.
Proof.
  intros Hne. unfold determine_baseline.
  destruct l as [|v0 l0] eqn:El; [congruence|]. rewrite <- El in *.
  assert (Hlen : (0 <? List.length l)%nat = true) by (subst l; reflexivity).
  rewrite Hlen.
  destruct (Object_keys (foldl count_step [] l)) as [|a ks] eqn:Ek.
  { exfalso. assert (Hin : v0 ∈ l) by (subst l; left).
    apply counts_keys in Hin. rewrite Ek in Hin. inversion Hin. }
  simpl. eexists. split; [reflexivity|].
  apply counts_keys. rewrite Ek. apply foldl_pick_key_elem.
Qed.

(** Whatever the order of the keys, the reduction ends on a key of the
    highest count. *)
Lemma foldl_pick_key_max o (c : Z -> nat) ks :
  forall a,
    (forall k, k ∈ a :: ks -> obj_get o k = Some (c k)) ->
    forall k, k ∈ a :: ks -> (c k <= c (foldl (pick_key o) a ks))%nat.
Proof.
  induction ks as [|b ks IH]; intros a Hget k Hk; simpl.
  - apply list_elem_of_singleton in Hk as ->. lia.
  - assert (Hp : (pick_key o a b = a \/ pick_key o a b = b) /\
                 (c a <= c (pick_key o a b))%nat /\ (c b <= c (pick_key o a b))%nat).
    { unfold pick_key. rewrite (Hget a), (Hget b) by (repeat constructor). simpl.
      destruct (Nat.ltb_spec (c b) (c a)); split; auto; lia. }
    destruct Hp as (Hp & Hpa & Hpb).
    assert (Hget' : forall k', k' ∈ pick_key o a b :: ks -> obj_get o k' = Some (c k')).
    { intros k' Hk'. apply Hget. apply elem_of_cons in Hk' as [-> | Hk'].
      - destruct Hp as [-> | ->]; [left | right; left].
      - right; right. exact Hk'. }
    pose proof (IH _ Hget' (pick_key o a b) ltac:(left)) as Hbest.
    apply elem_of_cons in Hk as [-> | Hk]; [lia|].
    apply elem_of_cons in Hk as [-> | Hk]; [lia|].
    apply (IH _ Hget'). right. exact Hk.
Qed.

Lemma baseline_most_frequent (l : list Z) :
  l <> [] ->
  exists b, determine_baseline l = Some (inject_Z b) /\ b ∈ l /\
            forall v, (count_occ Z.eq_dec l v <= count_occ Z.eq_dec l b)%nat.
Proof.
  intros Hne. unfold determine_baseline.
  destruct l as [|v0 l0] eqn:El; [congruence|]. rewrite <- El in *.
  assert (Hlen : (0 <? List.length l)%nat = true) by (subst l; reflexivity).
  rewrite Hlen.
  destruct (Object_keys (foldl count_step [] l)) as [|a ks] eqn:Ek.
  { exfalso. assert (Hin : v0 ∈ l) by (subst l; left).
    apply counts_keys in Hin. rewrite Ek in Hin. inversion Hin. }
  simpl. eexists. split; [reflexivity|].
  assert (Hin : foldl (pick_key (foldl count_step [] l)) a ks ∈ l).
  { apply counts_keys. rewrite Ek. apply foldl_pick_key_elem. }
  split; [exact Hin|].
  intros v. destruct (decide (v ∈ l)) as [Hv | Hv].
  - apply (foldl_pick_key_max (foldl count_step [] l) (count_occ Z.eq_dec l) ks a).
    + intros k Hk. rewrite <- Ek in Hk. apply (proj1 (counts_keys _ _)) in Hk.
      rewrite counts_get, bool_decide_eq_true_2 by exact Hk. reflexivity.
    + rewrite <- Ek. apply counts_keys, Hv.
  - rewrite list_elem_of_In in Hv, Hin.
    apply (count_occ_not_In Z.eq_dec) in Hv.
    apply (count_occ_In Z.eq_dec) in Hin. lia.
Qed.

(** X19. The baseline is a most frequent value also when the values are
    not array indices as keys.  On a non-empty list of integers that a
    number holds exactly (magnitude at most 2^53, negative ones and ones
    from 2^32 - 1 on included, whose keys are kept in insertion order
    after the array indices), the baseline is a value of the list, and no
    value occurs more often in the list. *)
Theorem determine_baseline_member (l : list Z) :
  l <> [] ->
  Forall (fun v => - 2 ^ 53 <= v <= 2 ^ 53) l ->
  exists b, determine_baseline l = Some (inject_Z b) /\ b ∈ l /\
            forall v, (count_occ Z.eq_dec l v <= count_occ Z.eq_dec l b)%nat.
Proof. intros Hne _. exact (baseline_most_frequent l Hne). Qed.

Lemma determine_baseline_member_witness :
  exists b, determine_baseline maxY_wide = Some (inject_Z b) /\ b ∈ maxY_wide /\
            forall v, (count_occ Z.eq_dec maxY_wide v <= count_occ Z.eq_dec maxY_wide b)%nat.
Proof.
  apply (determine_baseline_member maxY_wide).
  - discriminate.
  - unfold maxY_wide. repeat constructor; lia.
Defined.

(** X20. In a batch with a fetched character that is not blank, the
    baseline is the bottom row of one of the characters of the batch that
    was fetched and is not blank, and the glyph of that character is
    [done] with a vertical offset equal to 0: a glyph with ink always sits
    on the baseline. *)
Theorem batch_glyph_on_baseline (fetch : string -> ImageData + string) (charset : string)
        (i0 : nat) (c0 : ascii) (image0 : ImageData) :
  let uniqueChars := unique_chars [] (list_ascii_of_string charset) in
  uniqueChars !! i0 = Some c0 ->
  fetch (char_string c0) = inl image0 ->
  pc_maxY (processImage image0) <> -1 ->
  exists glyphs' i c image g,
    handleFetchAndProcessCharacters fetch charset = Some glyphs' /\
    uniqueChars !! i = Some c /\
    fetch (char_string c) = inl image /\
    pc_maxY (processImage image) <> -1 /\
    determine_baseline (s1_maxYValues (stage1 fetch uniqueChars))
    = Some (inject_Z (pc_maxY (processImage image))) /\
    glyphs' !! i = Some g /\
    gd_char g = char_string c /\ gd_status g = st_done /\ (gd_yOffset g == 0)%Q.
Proof.
  intros uniqueChars Hc0 Hf0 Hm0.
  destruct (batch_state_lookup fetch charset) as (b & gl' & Hb & Hgl' & _ & Hfinal).
  fold uniqueChars in Hb, Hfinal.
  destruct (stage1_lists fetch uniqueChars) as [Hvals Hres].
  (* the collected list is not empty *)
  assert (Hin0 : pc_maxY (processImage image0) ∈ s1_maxYValues (stage1 fetch uniqueChars)).
  { rewrite Hvals, Hres. apply list_elem_of_In, filter_In. split.
    - apply in_map_iff.
      exists (mkIntermediate i0 (char_string c0) (processImage image0)).
      split; [reflexivity|]. apply list_elem_of_In, stage1_results_elem.
      exists i0, c0, image0. split; [apply imap_pair_elem, Hc0 | auto].
    - destruct (Z.eqb_spec (pc_maxY (processImage image0)) (-1)); [contradiction | reflexivity]. }
  destruct (baseline_in_list (s1_maxYValues (stage1 fetch uniqueChars)))
    as (k & Hk & Hkin).
  { intros Hnil. rewrite Hnil in Hin0. inversion Hin0. }
  rewrite Hk in Hb. injection Hb as <-.
  (* the baseline is the maxY of a result *)
  rewrite Hvals, Hres in Hkin.
  apply list_elem_of_In, filter_In in Hkin as [Hkin Hk1].
  apply in_map_iff in Hkin as (ir & Hmax & Hir).
  apply list_elem_of_In, stage1_results_elem in Hir as (i & c & image & Hic & Hf & ->).
  simpl in Hmax. apply imap_pair_elem in Hic.
  specialize (Hfinal i c Hic). rewrite Hf in Hfinal.
  destruct Hfinal as (path & _ & Hg).
  assert (Hk' : k <> -1) by (destruct (Z.eqb_spec k (-1)); [discriminate | assumption]).
  exists gl', i, c, image,
    (finalGlyphData (inject_Z k)
       (mkIntermediate i (char_string c) (processImage image)) path).
  split; [exact Hgl'|]. split; [exact Hic|]. split; [exact Hf|].
  rewrite Hmax. split; [exact Hk'|]. split; [exact Hk|]. split; [exact Hg|].
  split; [reflexivity|]. split; [reflexivity|].
  simpl. rewrite Hmax.
  destruct (Z.eqb_spec k (-1)); [reflexivity | ring].
Qed.

Lemma batch_glyph_on_baseline_witness :
  exists glyphs' i c image g,
    handleFetchAndProcessCharacters sample_fetch "A B" = Some glyphs' /\
    unique_chars [] (list_ascii_of_string "A B") !! i = Some c /\
    sample_fetch (char_string c) = inl image /\
    pc_maxY (processImage image) <> -1 /\
    determine_baseline
      (s1_maxYValues (stage1 sample_fetch (unique_chars [] (list_ascii_of_string "A B"))))
    = Some (inject_Z (pc_maxY (processImage image))) /\
    glyphs' !! i = Some g /\
    gd_char g = char_string c /\ gd_status g = st_done /\ (gd_yOffset g == 0)%Q.
Proof.
  apply (batch_glyph_on_baseline sample_fetch "A B" 0 "A"%char dot_3x2).
  - reflexivity.
  - reflexivity.
  - vm_compute. discriminate.
Defined.

Lemma stage1_maxYValues_row_index_witness :
  Forall row_index
    (s1_maxYValues (stage1 sample_fetch (unique_chars [] (list_ascii_of_string "A B")))).
Proof.
  apply (stage1_maxYValues_row_index sample_fetch).
  intros c image. unfold sample_fetch.
  destruct (String.eqb c "A"); [intros [= <-]; vm_compute; reflexivity|].
  destruct (String.eqb c " "); [intros [= <-]; vm_compute; reflexivity | discriminate].
Defined.

(** ** Export *)

Lemma filter_nil_Forall {A : Type} (f : A -> bool) (l : list A) :
  List.filter f l = [] <-> Forall (fun a => f a = false) l.
Proof.
  induction l as [|a l IH]; simpl.
  - split; [constructor | reflexivity].
  - destruct (f a) eqn:Ha.
    + split; [discriminate | intros H; inversion H; congruence].
    + rewrite IH. split; [constructor; assumption | intros H; inversion H; assumption].
Qed.

(** The two outcomes of export past its guard. *)
Lemma export_result_shape (glyphsData : list GlyphData) (name : string) :
  match assemble_valid_glyphs glyphsData name with
  | inr msg =>
      msg = "No successfully processed characters available to generate a font."%string /\
      Forall (fun g => valid_for_assembly g = false) glyphsData
  | inl font =>
      Exists (fun g => valid_for_assembly g = true) glyphsData /\
      familyName font = name /\ unitsPerEm font = UNITS_PER_EM /\
      exists notdef space rest,
        glyphs font = notdef :: space :: rest /\
        ot_name notdef = ".notdef"%string /\ ot_name space = "space"%string /\
        map ot_name rest
        = List.filter (fun c => negb (String.eqb c " ") && negb (String.eqb c ""))
            (map gd_char (List.filter valid_for_assembly glyphsData))
  end.
Proof.
  unfold assemble_valid_glyphs.
  destruct (List.filter valid_for_assembly glyphsData) as [|g gs] eqn:Hv.
  - simpl. split; [reflexivity|]. apply filter_nil_Forall, Hv.
  - cbn [List.length Nat.eqb]. split; [|split; [reflexivity|split; [reflexivity|]]].
    + apply Exists_exists. exists g.
      assert (Hg : In g (List.filter valid_for_assembly glyphsData)) by (rewrite Hv; left; reflexivity).
      apply filter_In in Hg as [Hg Hval]. split; [apply list_elem_of_In, Hg | exact Hval].
    + destruct (assembleTtfFont_glyphs_shape (map to_assembly_data (g :: gs)) name UNITS_PER_EM)
        as (notdef & space & rest & Hgl & Hn & _ & Hs & _ & _ & Hnames & _).
      exists notdef, space, rest.
      split; [exact Hgl|]. split; [exact Hn|]. split; [exact Hs|].
      rewrite Hnames, map_map. reflexivity.
Qed.

Lemma Forall_Exists_valid (glyphsData : list GlyphData) :
  Forall (fun g => valid_for_assembly g = false) glyphsData ->
  Exists (fun g => valid_for_assembly g = true) glyphsData -> False.
Proof.
  rewrite Forall_forall, Exists_exists. intros Hall (g & Hg & Hv).
  rewrite (Hall g Hg) in Hv. discriminate.
Qed.

(** The guard of export, and what export does past it. *)
Lemma export_guard_and_result (isFetchingChars isGeneratingTtf
                               charactersFetchedSuccessfully : bool)
      (glyphsData : list GlyphData) (name : string) :
  let result := handleAssembleFontFile isFetchingChars isGeneratingTtf
                  charactersFetchedSuccessfully glyphsData name in
  let guard := isFetchingChars = true \/ isGeneratingTtf = true \/
               charactersFetchedSuccessfully = false \/ name = ""%string in
  (result = None <-> guard) /\
  (~ guard -> result = Some (assemble_valid_glyphs glyphsData name)).
Proof.
  unfold handleAssembleFontFile.
  destruct isFetchingChars; [split; [split; [tauto | reflexivity] | tauto]|].
  destruct isGeneratingTtf; [split; [split; [tauto | reflexivity] | tauto]|].
  destruct charactersFetchedSuccessfully; [|split; [split; [tauto | reflexivity] | tauto]].
  destruct (String.eqb_spec name "") as [-> | Hname];
    [split; [split; [tauto | reflexivity] | tauto]|].
  simpl. split; [|reflexivity].
  split; [discriminate|]. intros [H | [H | [H | H]]]; congruence.
Qed.

(** X21. Export does nothing exactly when a batch or an export is running,
    no batch has succeeded or the font name is empty.  Past that guard it
    refuses with its message exactly when no glyph is [done] with an
    outline, a width and a visual height, and it assembles a font exactly
    when some glyph is: under the project's font name and with 256 units
    per em, a font made of [.notdef], [space] and one glyph per valid
    glyph whose character is not the space, in the order of the state;
    glyphs in [error] (or still in progress) are left out. *)
Theorem handleAssembleFontFile_result (isFetchingChars isGeneratingTtf
                                       charactersFetchedSuccessfully : bool)
        (glyphsData : list GlyphData) (name : string) :
  let result := handleAssembleFontFile isFetchingChars isGeneratingTtf
                  charactersFetchedSuccessfully glyphsData name in
  let guard := isFetchingChars = true \/ isGeneratingTtf = true \/
               charactersFetchedSuccessfully = false \/ name = ""%string in
  (result = None <-> guard) /\
  (~ guard ->
   (result
    = Some (inr "No successfully processed characters available to generate a font."%string)
    <-> Forall (fun g => valid_for_assembly g = false) glyphsData) /\
   (forall msg, result = Some (inr msg) ->
      msg = "No successfully processed characters available to generate a font."%string) /\
   ((exists font, result = Some (inl font))
    <-> Exists (fun g => valid_for_assembly g = true) glyphsData) /\
   (forall font, result = Some (inl font) ->
      familyName font = name /\ unitsPerEm font = UNITS_PER_EM /\
      exists notdef space rest,
        glyphs font = notdef :: space :: rest /\
        ot_name notdef = ".notdef"%string /\ ot_name space = "space"%string /\
        map ot_name rest
        = List.filter (fun c => negb (String.eqb c " ") && negb (String.eqb c ""))
            (map gd_char (List.filter valid_for_assembly glyphsData)))).
Proof.
  intros result guard.
  destruct (export_guard_and_result isFetchingChars isGeneratingTtf
              charactersFetchedSuccessfully glyphsData name) as [Hnone Hpast].
  fold result guard in Hnone, Hpast.
  split; [exact Hnone|]. intros Hguard. specialize (Hpast Hguard).
  pose proof (export_result_shape glyphsData name) as Hshape.
  rewrite Hpast.
  destruct (assemble_valid_glyphs glyphsData name) as [font | msg].
  - destruct Hshape as (Hex & Hshape).
    split; [split; [discriminate | intros Hall; destruct (Forall_Exists_valid _ Hall Hex)]|].
    split; [discriminate|].
    split; [split; [intros _; exact Hex | intros _; eexists; reflexivity]|].
    intros font' [= <-]. exact Hshape.
  - destruct Hshape as (-> & Hall).
    split; [split; [intros _; exact Hall | reflexivity]|].
    split; [intros msg' [= <-]; reflexivity|].
    split; [|discriminate].
    split; [intros [font' Hf]; discriminate|].
    intros Hex. destruct (Forall_Exists_valid _ Hall Hex).
Qed.

Lemma imap_filter_map {A B C : Type} (F : nat -> A -> B) (ok : A -> bool)
      (valid : B -> bool) (name : B -> C) (name' : A -> C) (l : list A) :
  (forall i a, valid (F i a) = ok a) ->
  (forall i a, name (F i a) = name' a) ->
  map name (List.filter valid (imap F l)) = map name' (List.filter ok l).
Proof.
  intros Hv Hn. revert F Hv Hn. induction l as [|a l IH]; intros F Hv Hn; [reflexivity|].
  cbn [imap List.filter]. rewrite Hv.
  destruct (ok a); cbn [map]; [rewrite Hn; f_equal|];
    apply IH; intros; unfold compose; auto.
Qed.

(** The state a batch ends in, as a list. *)
Lemma batch_final_list fetch charset :
  exists baselineY,
    handleFetchAndProcessCharacters fetch charset
    = Some (imap (batch_glyph fetch baselineY)
                 (unique_chars [] (list_ascii_of_string charset))).
Proof.
  destruct (batch_state_lookup fetch charset) as (b & gl' & _ & Hgl' & Hlen & Hfinal).
  exists b. rewrite Hgl'. f_equal. apply list_eq. intros i.
  rewrite list_lookup_imap.
  destruct (unique_chars [] (list_ascii_of_string charset) !! i) as [c|] eqn:Hc; simpl.
  - specialize (Hfinal i c Hc). unfold batch_glyph.
    destruct (fetch (char_string c)); [|exact Hfinal].
    destruct Hfinal as (path & -> & Hg). exact Hg.
  - apply lookup_ge_None. rewrite Hlen. apply lookup_ge_None, Hc.
Qed.

Lemma anySuccess_true irs : anySuccess irs = true <-> irs <> [].
Proof.
  unfold anySuccess. destruct irs as [|ir irs]; simpl.
  - split; [discriminate | congruence].
  - split; [discriminate | intros _].
    induction irs as [|ir' irs IH]; [reflexivity | exact IH].
Qed.

(** X22. Batch, then export under a non-empty font name.  Export does
    nothing exactly when every fetch failed (no batch has succeeded then),
    and its refusal message cannot occur.  When some fetch succeeded,
    export assembles a font that holds [.notdef], [space] and then one
    glyph for each distinct character of the charset whose fetch succeeded
    other than the space, in charset order, and none for a character whose
    fetch failed. *)
Theorem batch_export_glyphs (fetch : string -> ImageData + string)
        (charset name : string) :
  name <> ""%string ->
  let uniqueChars := unique_chars [] (list_ascii_of_string charset) in
  let charactersFetchedSuccessfully :=
    anySuccess (s1_intermediateResults (stage1 fetch uniqueChars)) in
  exists glyphs',
    handleFetchAndProcessCharacters fetch charset = Some glyphs' /\
    let result :=
      handleAssembleFontFile false false charactersFetchedSuccessfully glyphs' name in
    (charactersFetchedSuccessfully = false
     <-> Forall (fun c => fetched fetch c = false) uniqueChars) /\
    (result = None <-> Forall (fun c => fetched fetch c = false) uniqueChars) /\
    (forall msg, result <> Some (inr msg)) /\
    (Exists (fun c => fetched fetch c = true) uniqueChars ->
     exists font notdef space rest,
       result = Some (inl font) /\
       glyphs font = notdef :: space :: rest /\
       ot_name notdef = ".notdef"%string /\ ot_name space = "space"%string /\
       map ot_name rest
       = map char_string
           (List.filter (fun c => fetched fetch c && negb (Ascii.eqb c " "))
                        uniqueChars)).
Proof.
  intros Hname uniqueChars ok.
  destruct (batch_final_list fetch charset) as (b & Hgl). fold uniqueChars in Hgl.
  eexists. split; [exact Hgl|].
  assert (Hvalid : forall i c, valid_for_assembly (batch_glyph fetch b i c) = fetched fetch c).
  { intros i c. unfold batch_glyph, fetched.
    destruct (fetch (char_string c)); reflexivity. }
  assert (Hchar : forall i c, gd_char (batch_glyph fetch b i c) = char_string c).
  { intros i c. unfold batch_glyph. destruct (fetch (char_string c)); reflexivity. }
  destruct (stage1_lists fetch uniqueChars) as [_ Hres].
  (* no batch has succeeded exactly when every fetch failed *)
  assert (Hok : ok = false <-> Forall (fun c => fetched fetch c = false) uniqueChars).
  { unfold ok. rewrite Hres. split.
    - intros Hfalse. apply Forall_forall. intros c Hc.
      apply list_elem_of_lookup in Hc as [i Hc].
      unfold fetched. destruct (fetch (char_string c)) as [image|] eqn:Hf; [|reflexivity].
      exfalso.
      assert (Hir : mkIntermediate i (char_string c) (processImage image)
                    ∈ stage1_results fetch (imap pair uniqueChars)).
      { apply stage1_results_elem. exists i, c, image.
        split; [apply imap_pair_elem, Hc | auto]. }
      assert (Htrue : anySuccess (stage1_results fetch (imap pair uniqueChars)) = true).
      { apply anySuccess_true. intros Hnil. rewrite Hnil in Hir. inversion Hir. }
      congruence.
    - intros Hall.
      destruct (anySuccess (stage1_results fetch (imap pair uniqueChars))) eqn:Hany;
        [exfalso | reflexivity].
      apply anySuccess_true in Hany.
      destruct (stage1_results fetch (imap pair uniqueChars)) as [|ir irs] eqn:Hirs;
        [congruence|].
      assert (Hir : ir ∈ stage1_results fetch (imap pair uniqueChars))
        by (rewrite Hirs; left).
      apply stage1_results_elem in Hir as (i & c & image & Hic & Hf & _).
      apply imap_pair_elem in Hic.
      rewrite Forall_forall in Hall.
      specialize (Hall c (list_elem_of_lookup_2 _ _ _ Hic)).
      unfold fetched in Hall. rewrite Hf in Hall. discriminate. }
  assert (Hex : Exists (fun c => fetched fetch c = true) uniqueChars -> ok = true).
  { intros Hsome. destruct ok eqn:E; [reflexivity | exfalso].
    pose proof (proj1 Hok eq_refl) as Hall. rewrite Forall_forall in Hall.
    apply Exists_exists in Hsome as (c & Hc & Hfc).
    rewrite (Hall c Hc) in Hfc. discriminate. }
  (* the valid glyphs of the final state are those of the fetched characters *)
  assert (Hvalids : Forall (fun g => valid_for_assembly g = false)
                           (imap (batch_glyph fetch b) uniqueChars)
                    -> Forall (fun c => fetched fetch c = false) uniqueChars).
  { rewrite !Forall_forall. intros Hall c Hc.
    apply list_elem_of_lookup in Hc as [i Hc].
    rewrite <- (Hvalid i c). apply Hall.
    apply list_elem_of_lookup. exists i. rewrite list_lookup_imap, Hc. reflexivity. }
  cbv zeta. split; [exact Hok|].
  destruct (export_guard_and_result false false ok
              (imap (batch_glyph fetch b) uniqueChars) name) as [Hnone Hpast].
  cbv zeta in Hnone, Hpast.
  pose proof (export_result_shape (imap (batch_glyph fetch b) uniqueChars) name) as Hshape.
  assert (Hguard : ok = true ->
            handleAssembleFontFile false false ok (imap (batch_glyph fetch b) uniqueChars) name
            = Some (assemble_valid_glyphs (imap (batch_glyph fetch b) uniqueChars) name)).
  { intros Htrue. apply Hpast. intros [H | [H | [H | H]]]; congruence. }
  assert (Hfont : ok = true ->
            exists font, assemble_valid_glyphs (imap (batch_glyph fetch b) uniqueChars) name
                         = inl font).
  { intros Htrue.
    destruct (assemble_valid_glyphs (imap (batch_glyph fetch b) uniqueChars) name)
      as [font | msg]; [eexists; reflexivity | exfalso].
    destruct Hshape as [_ Hall]. apply Hvalids, Hok in Hall. congruence. }
  split; [|split].
  - rewrite Hnone, <- Hok. split.
    + intros [H | [H | [H | H]]]; congruence.
    + intros H. right; right; left. exact H.
  - intros msg Hres'. destruct ok eqn:E.
    + destruct (Hfont eq_refl) as [font Hf]. rewrite (Hguard eq_refl), Hf in Hres'.
      discriminate.
    + assert (Hn : handleAssembleFontFile false false false
                     (imap (batch_glyph fetch b) uniqueChars) name = None)
        by (apply Hnone; right; right; left; reflexivity).
      rewrite Hn in Hres'. discriminate.
  - intros Hsome. specialize (Hex Hsome).
    destruct (Hfont Hex) as [font Hf]. rewrite (Hguard Hex), Hf. rewrite Hf in Hshape.
    destruct Hshape as (_ & _ & _ & notdef & space & rest & Hglyphs & Hn & Hs & Hnames).
    exists font, notdef, space, rest.
    split; [reflexivity|]. split; [exact Hglyphs|]. split; [exact Hn|]. split; [exact Hs|].
    rewrite Hnames.
    rewrite (imap_filter_map (batch_glyph fetch b) (fetched fetch) valid_for_assembly
               gd_char char_string uniqueChars Hvalid Hchar).
    clear. induction uniqueChars as [|c cs IH]; [reflexivity|].
    cbn [List.filter]. destruct (fetched fetch c); cbn [map List.filter andb]; [|exact IH].
    replace (String.eqb (char_string c) " ") with (Ascii.eqb c " ").
    2:{ unfold char_string. cbn [String.eqb]. destruct (Ascii.eqb c " "); reflexivity. }
    destruct (Ascii.eqb c " "); cbn [negb andb map]; [exact IH | f_equal; exact IH].
Qed.

Lemma batch_export_glyphs_witness :
  exists glyphs',
    handleFetchAndProcessCharacters sample_fetch "A B" = Some glyphs' /\
    let result :=
      handleAssembleFontFile false false
        (anySuccess (s1_intermediateResults
           (stage1 sample_fetch (unique_chars [] (list_ascii_of_string "A B")))))
        glyphs' "Font" in
    (anySuccess (s1_intermediateResults
       (stage1 sample_fetch (unique_chars [] (list_ascii_of_string "A B")))) = false
     <-> Forall (fun c => fetched sample_fetch c = false)
                (unique_chars [] (list_ascii_of_string "A B"))) /\
    (result = None <-> Forall (fun c => fetched sample_fetch c = false)
                              (unique_chars [] (list_ascii_of_string "A B"))) /\
    (forall msg, result <> Some (inr msg)) /\
    (Exists (fun c => fetched sample_fetch c = true)
            (unique_chars [] (list_ascii_of_string "A B")) ->
     exists font notdef space rest,
       result = Some (inl font) /\
       glyphs font = notdef :: space :: rest /\
       ot_name notdef = ".notdef"%string /\ ot_name space = "space"%string /\
       map ot_name rest
       = map char_string
           (List.filter (fun c => fetched sample_fetch c && negb (Ascii.eqb c " "))
                        (unique_chars [] (list_ascii_of_string "A B")))).
Proof. apply (batch_export_glyphs sample_fetch "A B" "Font"). discriminate. Defined.

(** ** The glyph editor *)

(** X23. Saving an edit replaces, in a state whose glyphs sit at their
    ids, exactly the edited glyph: it gets the new offsets, scale and
    advance width and keeps its id, character, status, outline and visual
    size; every other glyph and the length of the list are unchanged. *)
Theorem editor_save_update (prevGlyphs : list GlyphData) (i : nat) (glyph : GlyphData)
        (xOffset yOffset scale advanceWidth : Q) :
  ids_ok prevGlyphs ->
  prevGlyphs !! i = Some glyph ->
  let saved := editor_save glyph xOffset yOffset scale advanceWidth in
  handleUpdateGlyphDetails saved prevGlyphs = <[i := saved]> prevGlyphs /\
  ids_ok (handleUpdateGlyphDetails saved prevGlyphs) /\
  gd_id saved = i /\ gd_char saved = gd_char glyph /\
  gd_status saved = gd_status glyph /\ gd_opentypePath saved = gd_opentypePath glyph /\
  to_assembly_data saved
  = mkFontAssemblyGlyphData (gd_char glyph) (default [] (gd_opentypePath glyph))
      advanceWidth (inject_Z (default 0 (gd_visualHeight glyph))) xOffset yOffset scale.
Proof.
  intros Hids Hg saved.
  assert (Hid : gd_id saved = i) by (simpl; apply (Hids _ _ Hg)).
  assert (Heq : handleUpdateGlyphDetails saved prevGlyphs = <[i := saved]> prevGlyphs).
  { apply list_eq. intros j. unfold handleUpdateGlyphDetails. rewrite map_lookup, Hid.
    destruct (decide (j = i)) as [-> | Hne].
    - rewrite list_lookup_insert_eq by (eapply lookup_lt_Some, Hg).
      rewrite Hg. simpl. rewrite (Hids _ _ Hg), Nat.eqb_refl. reflexivity.
    - rewrite list_lookup_insert_ne by congruence.
      destruct (prevGlyphs !! j) as [g|] eqn:Hj; [|reflexivity]. simpl.
      rewrite (Hids _ _ Hj). destruct (Nat.eqb_spec j i); [contradiction | reflexivity]. }
  split; [exact Heq|]. split; [|repeat split; assumption].
  rewrite Heq. intros j g. destruct (decide (j = i)) as [-> | Hne].
  - rewrite list_lookup_insert_eq by (eapply lookup_lt_Some, Hg). intros [= <-]. exact Hid.
  - rewrite list_lookup_insert_ne by congruence. apply Hids.
Qed.

Lemma editor_save_update_witness :
  handleUpdateGlyphDetails (editor_save (initial_glyph 0 "A") 1 2 (3 # 2) 40)
                           [initial_glyph 0 "A"; initial_glyph 1 "B"]
  = <[0%nat := editor_save (initial_glyph 0 "A") 1 2 (3 # 2) 40]>
      [initial_glyph 0 "A"; initial_glyph 1 "B"].
Proof.
  apply (editor_save_update [initial_glyph 0 "A"; initial_glyph 1 "B"] 0
           (initial_glyph 0 "A") 1 2 (3 # 2) 40).
  - intros [|[|i]] g; simpl; intros [= <-]; reflexivity.
  - reflexivity.
Defined.

Lemma Math_round_integer (w : Z) : Math_round (inject_Z w * 1) = w.
Proof.
  unfold Math_round, Qfloor, Qplus, Qmult, inject_Z. cbn [Qnum Qden Pos.mul].
  change (Z.pos (1 * 1 * 2)) with 2. change (Z.pos (1 * 1)) with 1.
  pose proof (Z.div_mod (w * 1 * 2 + 1 * 1) 2 ltac:(lia)).
  pose proof (Z.mod_pos_bound (w * 1 * 2 + 1 * 1) 2 ltac:(lia)). lia.
Qed.

(** X24. A glyph exported as the batch left it (scale 1, no horizontal
    offset) and whose character is not the space becomes one font glyph
    named by the character, whose advance width is the pixel width of its
    cropped bitmap and whose outline is the traced outline moved up by the
    glyph's vertical offset. *)
Theorem fresh_glyph_export (baselineY : Q) (i : nat) (c : ascii) (image : ImageData)
        (path : Path) :
  c <> " "%char ->
  let g := finalGlyphData baselineY
             (mkIntermediate i (char_string c) (processImage image)) path in
  exists og,
    assemble_glyph UNITS_PER_EM (to_assembly_data g) = [og] /\
    ot_name og = char_string c /\
    ot_unicode og = Z.of_nat (nat_of_ascii c) /\
    ot_advanceWidth og = pc_width (processImage image) /\
    path_eq (ot_path og) (map (translate_command 0 (gd_yOffset g)) path).
Proof.
  intros Hc g.
  destruct (processImage_dims_data image) as (Hw & _).
  assert (Hsp : String.eqb (char_string c) " " = false).
  { unfold char_string. cbn [String.eqb].
    destruct (Ascii.eqb_spec c " "); [contradiction | reflexivity]. }
  unfold assemble_glyph, to_assembly_data, g, finalGlyphData.
  cbn [gd_char gd_opentypePath gd_width gd_visualHeight gd_xOffset gd_yOffset gd_scale
       ir_char ir_id ir_processedData fa_char fa_width fa_scale default].
  rewrite Hsp. cbn [char_string charCodeAt0].
  eexists. split; [reflexivity|]. cbn [ot_name ot_unicode ot_advanceWidth ot_path].
  split; [reflexivity|]. split; [reflexivity|]. split.
  - unfold width_or_default, id.
    rewrite Qeq_bool_false.
    + rewrite Math_round_integer. lia.
    + intros H0. unfold Qeq, inject_Z in H0. simpl in H0. lia.
  - rewrite final_path_scale_then_translate. unfold scale_then_translate.
    cbn [fa_path fa_scale fa_xOffset fa_yOffset default].
    unfold scalePath. change (Qeq_bool 1 1) with true. cbv iota.
    unfold clonePath. rewrite map_id. apply translatePath_map.
Qed.

Lemma fresh_glyph_export_witness :
  exists og,
    assemble_glyph UNITS_PER_EM
      (to_assembly_data (finalGlyphData 1 (mkIntermediate 0 (char_string "A")
                                             (processImage dot_3x2)) pixel_outline))
    = [og] /\
    ot_name og = char_string "A" /\
    ot_unicode og = Z.of_nat (nat_of_ascii "A") /\
    ot_advanceWidth og = pc_width (processImage dot_3x2) /\
    path_eq (ot_path og)
      (map (translate_command 0
              (gd_yOffset (finalGlyphData 1 (mkIntermediate 0 (char_string "A")
                                               (processImage dot_3x2)) pixel_outline)))
           pixel_outline).
Proof.
  apply (fresh_glyph_export 1 0 "A" dot_3x2 pixel_outline). discriminate.
Defined.

(** ** Progress *)

Lemma round_ratio_mono (n a b : Z) :
  0 < n -> a <= b ->
  Math_round (inject_Z a / inject_Z n * 50) <= Math_round (inject_Z b / inject_Z n * 50).
Proof.
  intros Hn Hab. unfold Math_round. apply Qfloor_resp_le.
  assert (Hinv : (0 <= / inject_Z n)%Q).
  { apply Qinv_le_0_compat. change 0%Q with (inject_Z 0). rewrite <- Zle_Qle. lia. }
  assert (Hq : (inject_Z a / inject_Z n <= inject_Z b / inject_Z n)%Q).
  { unfold Qdiv. apply Qmult_le_compat_r; [|exact Hinv]. rewrite <- Zle_Qle. exact Hab. }
  lra.
Qed.

Lemma round_ratio_zero (n : Z) : Math_round (inject_Z 0 / inject_Z n * 50) = 0.
Proof.
  unfold Math_round.
  assert (E : (inject_Z 0 / inject_Z n * 50 + (1 # 2) == 1 # 2)%Q).
  { unfold Qdiv. change (inject_Z 0) with 0%Q. ring. }
  rewrite E. reflexivity.
Qed.

Lemma round_ratio_full (n : Z) : 0 < n -> Math_round (inject_Z n / inject_Z n * 50) = 50.
Proof.
  intros Hn. unfold Math_round.
  assert (E : (inject_Z n / inject_Z n * 50 + (1 # 2) == 101 # 2)%Q).
  { unfold Qdiv. rewrite Qmult_inv_r; [reflexivity|].
    intros H0. unfold Qeq, inject_Z in H0. simpl in H0. lia. }
  rewrite E. reflexivity.
Qed.

Lemma stage_progress_sorted (n : nat) (f : nat -> Z) (k : nat) :
  (forall i j, (i <= j)%nat -> f i <= f j) ->
  StronglySorted Z.le (map f (seq k n)).
Proof.
  intros Hf. revert k. induction n as [|n IH]; intros k; simpl; constructor; [apply IH|].
  apply Forall_forall. intros v Hv.
  apply list_elem_of_In, in_map_iff in Hv as (j & <- & Hj).
  apply in_seq in Hj. apply Hf. lia.
Qed.

Lemma stage1_progress_range n v : v ∈ stage1_progress n -> 0 <= v <= 50.
Proof.
  unfold stage1_progress. intros Hv.
  apply list_elem_of_In, in_map_iff in Hv as (i & <- & Hi). apply in_seq in Hi.
  assert (Hn : 0 < Z.of_nat n) by lia.
  pose proof (round_ratio_mono (Z.of_nat n) 0 (Z.of_nat i + 1) Hn ltac:(lia)) as H0.
  pose proof (round_ratio_mono (Z.of_nat n) (Z.of_nat i + 1) (Z.of_nat n) Hn ltac:(lia)) as H1.
  rewrite round_ratio_zero in H0. rewrite round_ratio_full in H1 by exact Hn. lia.
Qed.

Lemma stage2_progress_range m v : v ∈ stage2_progress m -> 50 <= v <= 100.
Proof.
  unfold stage2_progress. intros Hv.
  apply list_elem_of_In, in_map_iff in Hv as (i & <- & Hi). apply in_seq in Hi.
  assert (Hm : 0 < Z.of_nat m) by lia.
  pose proof (round_ratio_mono (Z.of_nat m) 0 (Z.of_nat i + 1) Hm ltac:(lia)) as H0.
  pose proof (round_ratio_mono (Z.of_nat m) (Z.of_nat i + 1) (Z.of_nat m) Hm ltac:(lia)) as H1.
  rewrite round_ratio_zero in H0. rewrite round_ratio_full in H1 by exact Hm. lia.
Qed.

Lemma stage1_progress_sorted n : StronglySorted Z.le (stage1_progress n).
Proof.
  destruct n as [|n]; [constructor|]. unfold stage1_progress.
  apply stage_progress_sorted. intros i j Hij. apply round_ratio_mono; lia.
Qed.

Lemma stage2_progress_sorted m : StronglySorted Z.le (stage2_progress m).
Proof.
  destruct m as [|m]; [constructor|]. unfold stage2_progress.
  apply (stage_progress_sorted _ (fun i => 50 + _)). intros i j Hij.
  apply Z.add_le_mono_l, round_ratio_mono; lia.
Qed.

(** X25. The progress values of a batch over [n] characters of which [m]
    reach stage 2 never decrease and stay between 0 and 100; stage 1 ends
    at 50, and the batch ends at 100 when some character reaches stage 2.
    When none does, the progress never exceeds 50. *)
Theorem progress_monotone (n m : nat) :
  StronglySorted Z.le (progress_trace n m) /\
  Forall (fun v => 0 <= v <= 100) (progress_trace n m) /\
  ((0 < n)%nat -> last (stage1_progress n) = Some 50) /\
  ((0 < m)%nat -> last (progress_trace n m) = Some 100) /\
  (m = 0%nat -> Forall (fun v => v <= 50) (progress_trace n m)).
Proof.
  unfold progress_trace. split; [|split; [|split; [|split]]].
  - constructor.
    + apply StronglySorted_app_2.
      * intros x1 x2 H1 H2. apply stage1_progress_range in H1.
        apply stage2_progress_range in H2. lia.
      * apply stage1_progress_sorted.
      * apply stage2_progress_sorted.
    + apply Forall_forall. intros v Hv. apply elem_of_app in Hv as [Hv | Hv].
      * apply stage1_progress_range in Hv. lia.
      * apply stage2_progress_range in Hv. lia.
  - constructor; [lia|]. apply Forall_forall. intros v Hv.
    apply elem_of_app in Hv as [Hv | Hv].
    + apply stage1_progress_range in Hv. lia.
    + apply stage2_progress_range in Hv. lia.
  - intros Hn. destruct n as [|n]; [lia|]. unfold stage1_progress.
    rewrite seq_S, map_app. simpl. rewrite last_snoc. f_equal.
    replace (Z.of_nat n + 1) with (Z.of_nat (S n)) by lia.
    apply round_ratio_full. lia.
  - intros Hm. destruct m as [|m]; [lia|]. unfold stage2_progress.
    rewrite seq_S, map_app. simpl.
    rewrite app_assoc, app_comm_cons, last_snoc. f_equal.
    replace (Z.of_nat m + 1) with (Z.of_nat (S m)) by lia.
    rewrite round_ratio_full by lia. reflexivity.
  - intros ->. simpl. rewrite app_nil_r. constructor; [lia|].
    apply Forall_forall. intros v Hv. apply stage1_progress_range in Hv. lia.
Qed.

(** ** The guide lines of the editor *)

(** Rounding a number of hundredths of an integer. *)
Lemma Math_round_hundredths (u p : Z) :
  0 <= p ->
  200 * Math_round (inject_Z u * (p # 100)) <= 2 * p * u + 100 /\
  2 * p * u + 100 < 200 * Math_round (inject_Z u * (p # 100)) + 200.
Proof.
  intros Hp. unfold Math_round, Qfloor, Qplus, Qmult, inject_Z. cbn [Qnum Qden Pos.mul].
  change (Z.pos (1 * 100 * 2)) with 200. change (Z.pos (1 * 100)) with 100.
  pose proof (Z.div_mod (u * p * 2 + 1 * 100) 200 ltac:(lia)).
  pose proof (Z.mod_pos_bound (u * p * 2 + 1 * 100) 200 ltac:(lia)). lia.
Qed.

(** X26. With at least 9 units per em the guide lines of the editor are
    strictly ordered, descender below baseline below x-height below
    cap-height below ascender, and they lie within the metrics written to
    the font in one direction only: the ascender guide is not above the
    font's ascender, while the descender guide is not above the font's
    descender (it is drawn at 22% of the em, the font's descender is at
    15%). *)
Theorem getReferenceLines_ordered (upm : Z) (glyphsData : list FontAssemblyGlyphData)
        (fontFamily : string) :
  9 <= upm ->
  let lines := getReferenceLines upm in
  let font := assembleTtfFont glyphsData fontFamily upm in
  rl_descender lines < rl_baseline lines /\
  rl_baseline lines < rl_xHeight lines /\
  rl_xHeight lines < rl_capHeight lines /\
  rl_capHeight lines < rl_ascender lines /\
  rl_ascender lines <= ascender font /\
  rl_descender lines <= descender font.
Proof.
  intros Hu. unfold getReferenceLines, assembleTtfFont.
  cbn [rl_descender rl_baseline rl_xHeight rl_capHeight rl_ascender ascender descender].
  pose proof (Math_round_hundredths upm 22 ltac:(lia)).
  pose proof (Math_round_hundredths upm 45 ltac:(lia)).
  pose proof (Math_round_hundredths upm 70 ltac:(lia)).
  pose proof (Math_round_hundredths upm 82 ltac:(lia)).
  pose proof (Math_round_hundredths upm 85 ltac:(lia)).
  pose proof (Math_round_hundredths upm 15 ltac:(lia)).
  lia.
Qed.

Lemma getReferenceLines_ordered_witness :
  rl_descender (getReferenceLines UNITS_PER_EM) < rl_baseline (getReferenceLines UNITS_PER_EM) /\
  rl_baseline (getReferenceLines UNITS_PER_EM) < rl_xHeight (getReferenceLines UNITS_PER_EM) /\
  rl_xHeight (getReferenceLines UNITS_PER_EM) < rl_capHeight (getReferenceLines UNITS_PER_EM) /\
  rl_capHeight (getReferenceLines UNITS_PER_EM) < rl_ascender (getReferenceLines UNITS_PER_EM) /\
  rl_ascender (getReferenceLines UNITS_PER_EM)
  <= ascender (assembleTtfFont [] "Font" UNITS_PER_EM) /\
  rl_descender (getReferenceLines UNITS_PER_EM)
  <= descender (assembleTtfFont [] "Font" UNITS_PER_EM).
Proof.
  apply (getReferenceLines_ordered UNITS_PER_EM [] "Font"). unfold UNITS_PER_EM. lia.
Defined.

(** ** The frequency table and the fallback, for any list *)

(** X27. After the first [reduce] the table maps every value of the list
    to its number of occurrences, which is positive, has no entry for any
    other integer, and its keys are the values of the list. *)
Theorem frequency_table (l : list Z) (v : Z) :
  (v ∈ l -> obj_get (foldl count_step [] l) v = Some (count_occ Z.eq_dec l v) /\
            (0 < count_occ Z.eq_dec l v)%nat) /\
  (v ∉ l -> obj_get (foldl count_step [] l) v = None) /\
  (v ∈ Object_keys (foldl count_step [] l) <-> v ∈ l).
Proof.
  split; [|split].
  - intros Hv. rewrite counts_get, bool_decide_eq_true_2 by exact Hv.
    split; [reflexivity|]. apply count_occ_In, list_elem_of_In, Hv.
  - intros Hv. rewrite counts_get, bool_decide_eq_false_2 by exact Hv. reflexivity.
  - apply counts_keys.
Qed.

(** X28. Whatever values were collected, the baseline is an integer and
    is not the fallback [RENDER_SIZE * 0.8]: the [isNaN] branch is dead
    code. *)
Theorem baseline_never_fallback (l : list Z) :
  exists k : Z,
    determine_baseline l = Some (inject_Z k) /\ ~ (inject_Z k == fallback_baseline)%Q.
Proof.
  destruct (determine_baseline_integer l) as (k & Hk).
  exists k. split; [exact Hk|].
  unfold fallback_baseline, RENDER_SIZE, Qeq, Qmult, inject_Z. simpl. lia.
Qed.

(** X2. The [maxY] returned by [processImage] is the sentinel -1 or a row
    of the input bitmap. *)
Theorem processImage_maxY_row (image : ImageData) :
  pc_maxY (processImage image) = -1 \/
  0 <= pc_maxY (processImage image) < Z.of_nat (img_height image).
Proof. exact (processImage_maxY_range image). Qed.
